(** * mitiq/utils.py: circuit equality, maximally entangled states,
      Choi matrices and poor man's tomography

    A shallow embedding of the functions of [mitiq/utils.py] that build and
    compare circuits, together with the part of [cirq] and [numpy] they call.

    Conventions.
    - A Python call either returns or raises: [result A]. A call that may
      reach the executor also records the circuits it passes to it:
      [Exec A].
    - Python floats and [np.float64] are idealised: a finite value is a real
      number (no rounding, a single zero); the three special values [inf],
      [-inf] and [nan] are kept, because the functions of this module can
      produce them. Rounding is not modelled, so no property below states
      the exact value of a rounded result. The conversion of a Python int
      to a float does raise [OverflowError].
    - The import list of the module is read with the comma after [ops]
      supplied, so that [ops] and [CNOT] are two imported names. *)

From Stdlib Require Import ZArith String Reals Lra Lia.
From stdpp Require Import base decidable option list gmap sets strings sorting.

Local Open Scope string_scope.
Local Open Scope list_scope.
Local Open Scope Z_scope.

(** ** cirq: qubits *)

(** [cirq.LineQubit(x)] and [cirq.GridQubit(row, col)]. *)
Inductive Qid :=
  | LineQubit (x : Z)
  | GridQubit (row col : Z).

#[global] Instance Qid_eq_dec : EqDecision Qid.
Proof. solve_decision. Defined.

#[global] Instance Qid_countable : Countable Qid.
Proof.
  refine (inj_countable'
    (λ q, match q with LineQubit x => inl x | GridQubit r c => inr (r, c) end)
    (λ s, match s with inl x => LineQubit x | inr (r, c) => GridQubit r c end) _).
  by intros [].
Defined.

(** [Qid._cmp_tuple]: qubits are ordered by class name first ("GridQubit"
    comes before "LineQubit"), then by their comparison key. *)
Definition Qid_cmp_tuple (q : Qid) : Z * (Z * Z) :=
  match q with
  | GridQubit r c => (0, (r, c))
  | LineQubit x => (1, (x, 0))
  end.

Definition Qid_le (a b : Qid) : Prop :=
  let '(ta, (a1, a2)) := Qid_cmp_tuple a in
  let '(tb, (b1, b2)) := Qid_cmp_tuple b in
  ta < tb ∨ (ta = tb ∧ (a1 < b1 ∨ (a1 = b1 ∧ a2 ≤ b2))).

#[global] Instance Qid_le_dec (a b : Qid) : Decision (Qid_le a b).
Proof.
  unfold Qid_le. destruct (Qid_cmp_tuple a) as [ta [a1 a2]].
  destruct (Qid_cmp_tuple b) as [tb [b1 b2]]. apply _.
Defined.

(** ** Python: exceptions, results, objects, module namespaces *)

Inductive exception :=
  | NameError (name : string)
  | KeyError (key : Qid)
  | IndexError (msg : string)
  | ValueError (msg : string)
  | TypeError (msg : string)
  | ZeroDivisionError (msg : string)
  | OverflowError (msg : string)
  | AssertionError
  | NotImplementedError (msg : string)
  | CircuitMismatchException (msg : string)
  | ExecutorError (msg : string).

Inductive result (A : Type) :=
  | Return (a : A)
  | Raise (e : exception).
Arguments Return {A} a.
Arguments Raise {A} e.

#[global] Instance result_ret : MRet result := λ A, Return.
#[global] Instance result_bind : MBind result := λ A B f m,
  match m with
  | Return a => f a
  | Raise e => Raise e
  end.

(** A reference to a Python object: its identity and its current value. *)
Record object (A : Type) := Object { id : positive; value : A }.
Arguments Object {A} id value.
Arguments id {A} o.
Arguments value {A} o.

(** [a is b] *)
Definition is_ {A} (a b : object A) : bool := bool_decide (id a = id b).

(** [copy.deepcopy]: a fresh object with the same value; the functions below
    never test the identity of a copy, so only the value is kept. *)
Definition deepcopy {A} (o : A) : A := o.

(** [seq[i]] for a non-negative constant index. *)
Definition getitem {A} (l : list A) (i : nat) : result A :=
  match l !! i with
  | Some x => Return x
  | None => Raise (IndexError "list index out of range")
  end.

(** [for _ in range(n): acc = body(acc)], stopping at the first exception. *)
Fixpoint for_range_nat {A} (n : nat) (body : A → result A) (acc : A) : result A :=
  match n with
  | O => Return acc
  | S n' => acc' ← body acc; for_range_nat n' body acc'
  end.

Definition for_range {A} (n : Z) (body : A → result A) (acc : A) : result A :=
  for_range_nat (Z.to_nat n) body acc.

(** ** numpy: floating-point values *)

Module np.

Inductive float64 :=
  | Fin (r : R)
  | PInf
  | NInf
  | NaN.

Definition pi : float64 := Fin PI.

Definition Rsign (r : R) : comparison :=
  if Rlt_dec 0 r then Gt else if Rlt_dec r 0 then Lt else Eq.

Definition sign (x : float64) : comparison :=
  match x with
  | Fin r => Rsign r
  | PInf => Gt
  | NInf => Lt
  | NaN => Eq
  end.

Definition sign_mul (a b : comparison) : comparison :=
  match a, b with
  | Eq, _ | _, Eq => Eq
  | Gt, Gt | Lt, Lt => Gt
  | _, _ => Lt
  end.

(** The infinity of a given sign; a product [0 * inf] is [nan]. *)
Definition inf_of (s : comparison) : float64 :=
  match s with
  | Gt => PInf
  | Lt => NInf
  | Eq => NaN
  end.

(** [x * y] *)
Definition multiply (x y : float64) : float64 :=
  match x, y with
  | NaN, _ | _, NaN => NaN
  | Fin a, Fin b => Fin (a * b)
  | _, _ => inf_of (sign_mul (sign x) (sign y))
  end.

(** [x - y] *)
Definition subtract (x y : float64) : float64 :=
  match x, y with
  | NaN, _ | _, NaN => NaN
  | Fin a, Fin b => Fin (a - b)
  | PInf, PInf | NInf, NInf => NaN
  | PInf, _ | _, NInf => PInf
  | NInf, _ | _, PInf => NInf
  end.

(** [x / y] on [np.float64]: a zero divisor gives [inf] or [nan] (with a
    warning), never an exception. *)
Definition divide (x y : float64) : float64 :=
  match x, y with
  | NaN, _ | _, NaN => NaN
  | Fin a, Fin b => if Req_dec_T b 0 then inf_of (Rsign a) else Fin (a / b)
  | Fin _, _ => Fin 0
  | _, Fin b => if Req_dec_T b 0 then x else inf_of (sign_mul (sign x) (Rsign b))
  | _, _ => NaN
  end.

Definition is_integer (y : R) : bool :=
  if Req_dec_T (IZR (Int_part y)) y then true else false.

(** [np.power(x, y)] for a finite exponent [y] (IEEE 754 [pow]): a negative
    finite base with a non-integer exponent gives [nan]; a zero base with a
    negative exponent gives [inf]. *)
Definition power (x : float64) (y : R) : float64 :=
  if Req_dec_T y 0 then Fin 1
  else match x with
       | NaN => NaN
       | Fin r =>
           if Rlt_dec 0 r then Fin (Rpower r y)
           else if Req_dec_T r 0 then (if Rlt_dec 0 y then Fin 0 else PInf)
           else if is_integer y then Fin (powerRZ r (Int_part y))
           else NaN
       | PInf => if Rlt_dec 0 y then PInf else Fin 0
       | NInf =>
           if Rlt_dec 0 y
           then (if is_integer y && Z.odd (Int_part y) then NInf else PInf)
           else Fin 0
       end.

(** [np.log(x)]: [-inf] at zero and [nan] below it (with a warning), never
    an exception. *)
Definition log (x : float64) : float64 :=
  match x with
  | Fin r =>
      if Rlt_dec 0 r then Fin (ln r)
      else if Req_dec_T r 0 then NInf
      else NaN
  | PInf => PInf
  | NInf => NaN
  | NaN => NaN
  end.

(** [x >= y] *)
Definition ge (x y : float64) : Prop :=
  match x, y with
  | NaN, _ | _, NaN => False
  | Fin a, Fin b => (b <= a)%R
  | PInf, _ | _, NInf => True
  | _, _ => False
  end.

End np.

(** The least positive integer with no double: an integer converts to a
    float when its absolute value is below [2^1024 - 2^970], the first value
    that rounds up to [2^1024]. *)
Definition float_max_int : Z := 2 ^ 1024 - 2 ^ 970.

(** The conversion of a Python int to a float, as an arithmetic operator
    does it: [OverflowError] when the int does not fit. *)
Definition int_to_float (n : Z) : result np.float64 :=
  if decide (Z.abs n < float_max_int) then Return (np.Fin (IZR n))
  else Raise (OverflowError "int too large to convert to float").

(** [x / d] for a Python float [x] and a Python int [d]: the int is
    converted first, then a zero divisor is refused. *)
Definition float_truediv_int (x : np.float64) (d : Z) : result np.float64 :=
  b ← int_to_float d;
  if decide (d = 0) then Raise (ZeroDivisionError "float division by zero")
  else Return (np.divide x b).

(** [n / d] for two Python ints. *)
Definition int_truediv (n d : Z) : result R :=
  if decide (d = 0) then Raise (ZeroDivisionError "division by zero")
  else Return (IZR n / IZR d)%R.

(** ** cirq: gates, operations, moments, circuits *)

(** The gate classes derived from [cirq.EigenGate]; calling a class builds a
    gate, [cls()] with the default exponent 1 and [cls(exponent=e)] with
    exponent [e]. *)
Inductive EigenGateClass :=
  | XPowGate | YPowGate | ZPowGate | HPowGate
  | CNotPowGate | CZPowGate | SwapPowGate | ISwapPowGate
  | CCXPowGate | CCZPowGate.

Inductive Gate :=
  | EigenGate (cls : EigenGateClass) (exponent : np.float64)
  | MeasurementGate (num_qubits : nat) (key : string) (invert_mask : list bool).

(** [cls().num_qubits()] *)
Definition class_num_qubits (cls : EigenGateClass) : nat :=
  match cls with
  | XPowGate | YPowGate | ZPowGate | HPowGate => 1
  | CNotPowGate | CZPowGate | SwapPowGate | ISwapPowGate => 2
  | CCXPowGate | CCZPowGate => 3
  end.

(** [gate.num_qubits()] *)
Definition gate_num_qubits (g : Gate) : nat :=
  match g with
  | EigenGate cls _ => class_num_qubits cls
  | MeasurementGate n _ _ => n
  end.

(** [cirq.H] and [cirq.CNOT] *)
Definition H : Gate := EigenGate HPowGate (np.Fin 1).
Definition CNOT : Gate := EigenGate CNotPowGate (np.Fin 1).

Record GateOperation := GateOp { gate : Gate; qubits : list Qid }.

Definition has_duplicates (qs : list Qid) : bool :=
  bool_decide (¬ NoDup qs).

(** [gate.on(q0, q1, ...)], also written [gate(q0, q1, ...)]: the number of qubits
    must be the arity of the gate and no qubit may be repeated. *)
Definition on (g : Gate) (qs : list Qid) : result GateOperation :=
  if negb (bool_decide (length qs = gate_num_qubits g))
  then Raise (ValueError "Wrong number of qubits for gate")
  else if has_duplicates qs
  then Raise (ValueError "Duplicate qids for gate")
  else Return (GateOp g qs).

(** A moment is the tuple of its operations, a circuit the list of its
    moments. *)
Definition Moment := list GateOperation.
Definition Circuit := list Moment.

(** [moment.operates_on(qubits)] *)
Definition operates_on (m : Moment) (qs : list Qid) : bool :=
  existsb (λ op, existsb (λ q, bool_decide (q ∈ qubits op)) qs) m.

(** [Moment(operations)]: the operations must act on disjoint qubits. *)
Fixpoint Moment_new (operations : list GateOperation) : result Moment :=
  match operations with
  | [] => Return []
  | op :: rest =>
      m ← Moment_new rest;
      if operates_on m (qubits op)
      then Raise (ValueError "Overlapping operations")
      else Return (op :: m)
  end.

(** [Circuit(moments)] for a list of moments. *)
Definition Circuit_new (moments : list Moment) : Circuit := moments.

(** [LineQubit.range(n)] *)
Definition LineQubit_range (n : Z) : list Qid :=
  (λ i : nat, LineQubit (Z.of_nat i)) <$> seq 0 (Z.to_nat n).

(** [circuit.all_qubits()] *)
Definition moment_qubits (m : Moment) : gset Qid :=
  ⋃ ((λ op, list_to_set (qubits op)) <$> m).

Definition all_qubits (c : Circuit) : gset Qid :=
  ⋃ (moment_qubits <$> c).

(** [sorted(qubits)] *)
Definition sorted (s : gset Qid) : list Qid := merge_sort Qid_le (elements s).

(** [dict(pairs)]: a later pair overrides an earlier one with the same key. *)
Definition dict (pairs : list (Qid * Qid)) : gmap Qid Qid :=
  list_to_map (reverse pairs).

(** [Circuit._prev_moment_available(op, end_moment_index)]: walking back from
    [k], the lowest moment index the operation can slide to before it meets
    a moment that acts on one of its qubits. *)
Fixpoint prev_moment_available (c : Circuit) (op : GateOperation)
    (k last_available : nat) : nat :=
  match k with
  | O => last_available
  | S k' =>
      match c !! k' with
      | Some m =>
          if operates_on m (qubits op) then last_available
          else prev_moment_available c op k' k'
      | None => prev_moment_available c op k' last_available
      end
  end.

(** [circuit.append(op)] with the default strategy [InsertStrategy.EARLIEST]:
    the operation joins the earliest moment it can slide to, and opens a new
    moment at the end when there is none. *)
Definition append (c : Circuit) (op : GateOperation) : Circuit :=
  let p := prev_moment_available c op (length c) (length c) in
  if decide (length c ≤ p)%nat then c ++ [[op]]
  else alter (λ m, m ++ [op]) p c.

(** [circuit += other]: the moments of [other] are added after those of
    [circuit]. *)
Definition iadd (c other : Circuit) : Circuit := c ++ other.

(** [circuit[0:0]] *)
Definition empty_slice (c : Circuit) : Circuit := take 0 c.

(** [circuit.transform_qubits(func)]: every operation is rebuilt on the
    images of its qubits, moment by moment; an exception of [func] goes
    through. *)
Definition transform_operation (func : Qid → result Qid) (op : GateOperation)
    : result GateOperation :=
  qs ← mapM func (qubits op); on (gate op) qs.

Definition transform_moment (func : Qid → result Qid) (m : Moment)
    : result Moment :=
  ops ← mapM (transform_operation func) m; Moment_new ops.

Definition transform_qubits (func : Qid → result Qid) (c : Circuit)
    : result Circuit :=
  mapM (transform_moment func) c.

Definition is_measurement (op : GateOperation) : bool :=
  match gate op with
  | MeasurementGate _ _ _ => true
  | EigenGate _ _ => false
  end.

(** [circuit.findall_operations_with_gate_type(MeasurementGate)], keeping the
    moment index and the operation of each hit. *)
Definition findall_measurements (c : Circuit) : list (nat * GateOperation) :=
  mjoin (imap (λ i m, (λ op, (i, op)) <$> filter (λ op, is_measurement op = true) m) c).

(** [gate.key] set to the empty string on the gate of a measurement
    operation. *)
Definition reset_key (op : GateOperation) : GateOperation :=
  match gate op with
  | MeasurementGate n _ mask => GateOp (MeasurementGate n EmptyString mask) (qubits op)
  | EigenGate _ _ => op
  end.

(** The operations of [cirq] that [_equal] calls and no property below
    depends on: removal and insertion of operations at given moments, and the
    dependency graph of a circuit with its equality. *)
Class CircuitLibrary := {
  batch_remove : Circuit → list (nat * GateOperation) → result Circuit;
  batch_insert : Circuit → list (nat * GateOperation) → result Circuit;
  CircuitDag : Type;
  CircuitDag_from_circuit : Circuit → CircuitDag;
  CircuitDag_eq : CircuitDag → CircuitDag → bool;
}.

(** [cirq.DensityMatrixSimulator]: the final density matrix of a simulation
    is a square array with one row per basis state of the qubits of the
    circuit. *)
Class DensityMatrixSimulator := {
  ndarray : Type;
  shape : ndarray → N * N;
  simulate_final_density_matrix : Circuit → ndarray;
  simulate_shape c :
    shape (simulate_final_density_matrix c)
    = (2 ^ N.of_nat (size (all_qubits c)), 2 ^ N.of_nat (size (all_qubits c)))%N;
}.

(** ** Python: name resolution in a module *)

(** What a global name is bound to: a function from a gate to a gate class
    (the shape [_poor_mans_tomography] expects of [_get_base_gate]) or any
    other object, which this development never calls through a namespace. *)
Inductive pyobject :=
  | PyGateFunction (f : Gate → result EigenGateClass)
  | PyObject.

(** The built-in functions and constants of Python 3. *)
Definition builtins : gset string :=
  list_to_set
    [ "abs"; "all"; "any"; "ascii"; "bin"; "bool"; "breakpoint"; "bytearray";
      "bytes"; "callable"; "chr"; "classmethod"; "compile"; "complex";
      "delattr"; "dict"; "dir"; "divmod"; "enumerate"; "eval"; "exec";
      "filter"; "float"; "format"; "frozenset"; "getattr"; "globals";
      "hasattr"; "hash"; "help"; "hex"; "id"; "input"; "int"; "isinstance";
      "issubclass"; "iter"; "len"; "list"; "locals"; "map"; "max";
      "memoryview"; "min"; "next"; "object"; "oct"; "open"; "ord"; "pow";
      "print"; "property"; "range"; "repr"; "reversed"; "round"; "set";
      "setattr"; "slice"; "sorted"; "staticmethod"; "str"; "sum"; "super";
      "tuple"; "type"; "vars"; "zip"; "__import__";
      "None"; "True"; "False"; "Ellipsis"; "NotImplemented"; "__debug__";
      "Exception"; "NotImplementedError" ].

(** A name used in a function body that is not a local is looked up in the
    globals of the module, then in the built-ins, when the line runs. *)
Definition resolve (globals : gmap string pyobject) (name : string)
    : result pyobject :=
  match globals !! name with
  | Some o => Return o
  | None =>
      if bool_decide (name ∈ builtins) then Return PyObject
      else Raise (NameError name)
  end.

Definition call_gate_function (o : pyobject) (g : Gate) : result EigenGateClass :=
  match o with
  | PyGateFunction f => f g
  | PyObject => Raise (TypeError "object is not a gate function")
  end.

(** The names bound at the top level of [mitiq/utils.py]: its imports, in
    the order of the import statements, then its functions and its class. *)
Definition utils_names : list string :=
  [ "deepcopy"; "cast"; "Any"; "Dict"; "Callable"; "Iterable"; "np";
    "LineQubit"; "Circuit"; "CircuitDag"; "EigenGate"; "Gate";
    "GateOperation"; "Moment"; "ops"; "CNOT"; "H"; "DensityMatrixSimulator";
    "OP_TREE"; "MeasurementGate";
    "_simplify_gate_exponent"; "_simplify_circuit_exponents"; "_equal";
    "_are_close_dict"; "CircuitMismatchException"; "_generate_pmt_circuit";
    "_poor_mans_tomography"; "_max_ent_state_circuit"; "_circuit_to_choi";
    "_operation_to_choi" ].

Definition utils_globals : gmap string pyobject :=
  list_to_map ((λ name, (name, PyObject)) <$> utils_names).

(** ** The executor and the calls it receives *)

(** A computation that may call the executor: the circuits passed to it, in
    order, and how the computation ends. *)
Record Exec (A : Type) := MkExec { calls : list Circuit; outcome : result A }.
Arguments MkExec {A} calls outcome.
Arguments calls {A} e.
Arguments outcome {A} e.

#[global] Instance Exec_ret : MRet Exec := λ A a, MkExec [] (Return a).
#[global] Instance Exec_bind : MBind Exec := λ A B f m,
  match outcome m with
  | Return a => MkExec (calls m ++ calls (f a)) (outcome (f a))
  | Raise e => MkExec (calls m) (Raise e)
  end.

Definition lift {A} (r : result A) : Exec A := MkExec [] r.

Definition call_executor (executor : Circuit → result np.float64) (c : Circuit)
    : Exec np.float64 :=
  MkExec [c] (executor c).

(** ** mitiq/utils.py *)

Section equal.
Context {lib : CircuitLibrary}.

(** The body of the loop of [_equal] over the two circuits: the measurement
    operations are removed, their keys are emptied, and they are inserted
    again at the moments they came from. *)
Definition clear_measurement_keys (circ : Circuit) : result Circuit :=
  let measurements := findall_measurements circ in
  circ ← batch_remove circ measurements;
  let measurements := (λ '(i, op), (i, reset_key op)) <$> measurements in
  batch_insert circ measurements.

Definition _equal (circuit_one circuit_two : object Circuit)
    (require_qubit_equality require_measurement_equality : bool)
    : result bool :=
  if is_ circuit_one circuit_two then Return true
  else
    let circuit_one := deepcopy (value circuit_one) in
    let circuit_two := deepcopy (value circuit_two) in
    circuit_one ←
      (if negb require_qubit_equality then
         let qubit_map :=
           dict (zip (sorted (all_qubits circuit_one))
                     (sorted (all_qubits circuit_two))) in
         transform_qubits
           (λ q, match qubit_map !! q with
                 | Some q' => Return q'
                 | None => Raise (KeyError q)
                 end)
           circuit_one
       else Return circuit_one);
    '(circuit_one, circuit_two) ←
      (if negb require_measurement_equality then
         circuit_one ← clear_measurement_keys circuit_one;
         circuit_two ← clear_measurement_keys circuit_two;
         Return (circuit_one, circuit_two)
       else Return (circuit_one, circuit_two));
    Return (CircuitDag_eq (CircuitDag_from_circuit circuit_one)
                          (CircuitDag_from_circuit circuit_two)).
End equal.

Definition mismatch_message : string :=
  "Number of qubits does not match domain size of gate.".

(** One turn of the loop of [_generate_pmt_circuit]. *)
Definition pmt_loop_body (qubits : list Qid) (gate : EigenGateClass)
    (rotation_angle : np.float64) (moments : list Moment)
    : result (list Moment) :=
  let operations : list GateOperation := [] in
  let num_qubits := class_num_qubits gate in
  if negb (bool_decide (num_qubits = length qubits))
  then Raise (CircuitMismatchException mismatch_message)
  else
    op ← on (EigenGate gate rotation_angle) qubits;
    let operations := operations ++ [op] in
    moment ← Moment_new operations;
    Return (moments ++ [moment]).

(** [_generate_pmt_circuit(qubits, depth, gate)]; [gate] is called as a gate
    class. The annotation of the local [moments] names [List], which the
    module does not import: annotations of locals are not evaluated, so it
    raises nothing. *)
Definition _generate_pmt_circuit (qubits : list Qid) (depth : Z)
    (gate : EigenGateClass) : result Circuit :=
  rotation_angle ← float_truediv_int (np.multiply (np.Fin 2) np.pi) depth;
  moments ← for_range depth (pmt_loop_body qubits gate rotation_angle) [];
  Return (Circuit_new moments).

(** [Q = (1 - np.power(2*expectation-1, 1/depth))/2] *)
Definition tomography_Q (expectation : np.float64) (depth : Z)
    : result np.float64 :=
  let base := np.subtract (np.multiply (np.Fin 2) expectation) (np.Fin 1) in
  y ← int_truediv 1 depth;
  Return (np.divide (np.subtract (np.Fin 1) (np.power base y)) (np.Fin 2)).

(** [sigma = -0.5*np.log(1 - 2*Q)] *)
Definition tomography_sigma (Q : np.float64) : np.float64 :=
  np.multiply (np.Fin (-0.5))
    (np.log (np.subtract (np.Fin 1) (np.multiply (np.Fin 2) Q))).

(** [_poor_mans_tomography(executor, gate, qubit, depth)], run in a module
    whose globals are [globals]; [depth] defaults to 100. The argument
    [qubit] is annotated [int] and used as the qubit the gate acts on. *)
Definition _poor_mans_tomography (globals : gmap string pyobject)
    (executor : Circuit → result np.float64) (gate : Gate) (qubit : Qid)
    (depth : Z) : Exec np.float64 :=
  get_base_gate ← lift (resolve globals "_get_base_gate");
  base_gate ← lift (call_gate_function get_base_gate gate);
  circuit ← lift (_generate_pmt_circuit [qubit] depth base_gate);
  expectation ← call_executor executor circuit;
  Q ← lift (tomography_Q expectation depth);
  let sigma := tomography_sigma Q in
  mret sigma.

Definition unsupported_message : string :=
  "Only 2- or 4-qubit maximally entangling circuits are supported.".

Definition _max_ent_state_circuit (num_qubits : Z) : result Circuit :=
  let qreg := LineQubit_range num_qubits in
  let circ : Circuit := [] in
  if decide (num_qubits = 2) then
    q0 ← getitem qreg 0;
    op ← on H [q0];
    let circ := append circ op in
    op ← on CNOT qreg;
    let circ := append circ op in
    Return circ
  else if decide (num_qubits = 4) then
    q0 ← getitem qreg 0;
    op ← on H [q0];
    let circ := append circ op in
    q1 ← getitem qreg 1;
    op ← on H [q1];
    let circ := append circ op in
    q0 ← getitem qreg 0;
    q2 ← getitem qreg 2;
    op ← on CNOT [q0; q2];
    let circ := append circ op in
    q1 ← getitem qreg 1;
    q3 ← getitem qreg 3;
    op ← on CNOT [q1; q3];
    let circ := append circ op in
    Return circ
  else Raise (NotImplementedError unsupported_message).

(** The circuit [_circuit_to_choi] hands to the simulator. *)
Definition choi_full_circ (circuit : Circuit) : result Circuit :=
  let num_qubits := Z.of_nat (size (all_qubits circuit)) in
  let full_circ := empty_slice (deepcopy circuit) in
  prep ← _max_ent_state_circuit (2 * num_qubits);
  let full_circ := iadd full_circ prep in
  let full_circ := iadd full_circ circuit in
  Return full_circ.

Definition _circuit_to_choi {sim : DensityMatrixSimulator} (circuit : Circuit)
    : result ndarray :=
  full_circ ← choi_full_circ circuit;
  Return (simulate_final_density_matrix full_circ).

(** A simulator that keeps only the shape of the density matrix. *)
Definition shape_simulator : DensityMatrixSimulator := {|
  ndarray := N * N;
  shape a := a;
  simulate_final_density_matrix c :=
    (2 ^ N.of_nat (size (all_qubits c)), 2 ^ N.of_nat (size (all_qubits c)))%N;
  simulate_shape c := eq_refl;
|}.

(** [circuit.all_operations()] *)
Definition all_operations (c : Circuit) : list GateOperation := mjoin c.

(** The qubits a circuit prepares in a uniform superposition: those that
    carry a Hadamard gate. In [_max_ent_state_circuit] this is the half of
    the register that the controlled-NOT gates then copy onto the other
    half. *)
Definition superposed_qubits (c : Circuit) : gset Qid :=
  ⋃ ((λ op, match gate op with
            | EigenGate HPowGate _ => list_to_set (qubits op)
            | _ => ∅
            end) <$> all_operations c).

(** The two circuits of [_max_ent_state_circuit], written out. *)
Definition bell_circuit : Circuit :=
  [ [GateOp H [LineQubit 0]];
    [GateOp CNOT [LineQubit 0; LineQubit 1]] ].

Definition double_bell_circuit : Circuit :=
  [ [GateOp H [LineQubit 0]; GateOp H [LineQubit 1]];
    [GateOp CNOT [LineQubit 0; LineQubit 2];
     GateOp CNOT [LineQubit 1; LineQubit 3]] ].

(** ** mitiq/utils.py: the remaining functions *)

(** [Circuit(contents)]: the contents are a tree of operations and moments,
    read left to right; a moment is added after the moments already there,
    an operation is appended with the strategy [EARLIEST]. *)
#[warnings="-register-all"]
Inductive OP_TREE :=
  | tree_op (op : GateOperation)
  | tree_moment (m : Moment)
  | tree_list (children : list OP_TREE).

(** [cirq.flatten_to_ops_or_moments] *)
Fixpoint flatten_to_ops_or_moments (t : OP_TREE) : list (GateOperation + Moment) :=
  match t with
  | tree_op op => [inl op]
  | tree_moment m => [inr m]
  | tree_list children => concat (map flatten_to_ops_or_moments children)
  end.

Definition insert_item (c : Circuit) (item : GateOperation + Moment) : Circuit :=
  match item with
  | inl op => append c op
  | inr m => c ++ [m]
  end.

Definition Circuit_of_items (items : list (GateOperation + Moment)) : Circuit :=
  foldl insert_item [] items.

(** The operations of a flattened tree, those of a moment in the order of
    the moment. *)
Definition items_operations (items : list (GateOperation + Moment))
    : list GateOperation :=
  concat (map (λ item, match item with inl op => [op] | inr m => m end) items).

Definition Circuit_of_tree (contents : OP_TREE) : Circuit :=
  Circuit_of_items (flatten_to_ops_or_moments contents).

Definition _operation_to_choi {sim : DensityMatrixSimulator}
    (operation_tree : OP_TREE) : result ndarray :=
  let circuit := Circuit_of_tree operation_tree in
  _circuit_to_choi circuit.

(** [gate1 == gate2] on gates is left to [cirq]. *)
Class GateEquality := { Gate_eq : Gate → Gate → bool }.

(** [hasattr(gate, "_with_exponent")]: the gates of the eigen-gate classes
    have the method, a measurement gate has not. *)
Definition has_with_exponent (g : Gate) : bool :=
  match g with
  | EigenGate _ _ => true
  | MeasurementGate _ _ _ => false
  end.

(** [gate._with_exponent(e)] *)
Definition with_exponent (g : Gate) (e : np.float64) : Gate :=
  match g with
  | EigenGate cls _ => EigenGate cls e
  | MeasurementGate _ _ _ => g
  end.

(** [isinstance(gate, EigenGate)] *)
Definition is_EigenGate (g : Gate) : bool :=
  match g with
  | EigenGate _ _ => true
  | MeasurementGate _ _ _ => false
  end.

Definition _simplify_gate_exponent {eqv : GateEquality} (gate : Gate) : Gate :=
  if has_with_exponent gate && Gate_eq gate (with_exponent gate (np.Fin 1))
  then with_exponent gate (np.Fin 1)
  else gate.

(** An operation of a circuit as [_simplify_circuit_exponents] may meet it:
    a gate operation, or an operation of another class ([PauliString],
    [ControlledOperation], ...), of which nothing is looked at. *)
Inductive Operation :=
  | gate_operation (op : GateOperation)
  | other_operation (qs : list Qid).

(** A circuit whose operations need not be gate operations; [as_operations]
    reads a circuit of gate operations as one. *)
Definition as_operations (c : Circuit) : list (list Operation) :=
  map (map gate_operation) c.

(** What the loop of [_simplify_circuit_exponents] makes of one gate
    operation: the gate of an eigen gate is simplified, the qubits are
    kept. *)
Definition simplified_operation {eqv : GateEquality} (op : GateOperation)
    : GateOperation :=
  GateOp (if is_EigenGate (gate op) then _simplify_gate_exponent (gate op)
          else gate op)
         (qubits op).

(** The inner loop of [_simplify_circuit_exponents] over the operations of a
    moment: [assert isinstance(op, GateOperation)] fails on an operation of
    another class; [op.with_gate(g)] is [g.on] on the qubits of [op]. *)
Fixpoint simplify_operations {eqv : GateEquality} (moment : list Operation)
    (simplified_operations : list GateOperation) : result (list GateOperation) :=
  match moment with
  | [] => Return simplified_operations
  | other_operation _ :: _ => Raise AssertionError
  | gate_operation op :: rest =>
      let simplified_gate :=
        if is_EigenGate (gate op) then _simplify_gate_exponent (gate op)
        else gate op in
      simplified_operation ← on simplified_gate (qubits op);
      simplify_operations rest (simplified_operations ++ [simplified_operation])
  end.

(** The outer loop: [todo] are the moments still to visit, the first of them
    at index [moment_idx]. The circuit is changed in place, so the function
    gives the circuit as the call leaves it and how the call ends. *)
Fixpoint simplify_moments {eqv : GateEquality} (moment_idx : nat)
    (todo : list (list Operation)) (circuit : list (list Operation))
    : list (list Operation) * result unit :=
  match todo with
  | [] => (circuit, Return ())
  | moment :: rest =>
      match simplify_operations moment [] ≫= Moment_new with
      | Return new_moment =>
          simplify_moments (S moment_idx) rest
            (<[moment_idx := map gate_operation new_moment]> circuit)
      | Raise e => (circuit, Raise e)
      end
  end.

Definition _simplify_circuit_exponents {eqv : GateEquality}
    (circuit : list (list Operation)) : list (list Operation) * result unit :=
  simplify_moments 0 circuit circuit.

(** [np.isclose(a, b)] with the default tolerances: [b] is the reference
    value; two infinities of the same sign are close, [nan] is close to
    nothing. *)
#[global] Instance Rle_decision (x y : R) : Decision (x <= y)%R := Rle_dec x y.

Definition isclose (a b : np.float64) : bool :=
  match a, b with
  | np.Fin x, np.Fin y => bool_decide (Rabs (x - y) <= 1e-8 + 1e-5 * Rabs y)%R
  | np.PInf, np.PInf | np.NInf, np.NInf => true
  | _, _ => false
  end.

Section are_close_dict.
Context `{Countable K}.

(** The loop of [_are_close_dict] over the items of [dict_a]; a missing key
    in [dict_b[ka]] ends the call with [KeyError], here [None]. The items
    are visited in the order of the map: the loop has no effect besides its
    result. *)
Fixpoint are_close_items (items : list (K * np.float64))
    (dict_b : gmap K np.float64) : option bool :=
  match items with
  | [] => Some true
  | (ka, va) :: rest =>
      match dict_b !! ka with
      | None => None
      | Some vb =>
          if negb (isclose vb va) then Some false
          else are_close_items rest dict_b
      end
  end.

Definition _are_close_dict (dict_a dict_b : gmap K np.float64) : option bool :=
  let keys_a := dom dict_a in
  let keys_b := dom dict_b in
  if decide (keys_a ≠ keys_b) then Some false
  else are_close_items (map_to_list dict_a) dict_b.
End are_close_dict.

(** ** Well-formed circuits *)

(** An operation [cirq] can build: [gate.on] accepts its qubits. *)
Definition valid_operation (op : GateOperation) : Prop :=
  on (gate op) (qubits op) = Return op.

(** A moment [cirq] can build: its operations are valid and [Moment] accepts
    them. *)
Definition valid_moment (m : Moment) : Prop :=
  Forall valid_operation m ∧ Moment_new m = Return m.

Definition valid_circuit (c : Circuit) : Prop := Forall valid_moment c.

(** The circuit with every qubit [q] replaced by [f q]. *)
Definition relabel (f : Qid → Qid) (c : Circuit) : Circuit :=
  map (map (λ op, GateOp (gate op) (f <$> qubits op))) c.

(** The image of a qubit under the map [_equal] builds from the sorted
    qubits of its two arguments. *)
Definition qubit_image (circuit_one circuit_two : Circuit) (q : Qid) : Qid :=
  default q
    (dict (zip (sorted (all_qubits circuit_one))
               (sorted (all_qubits circuit_two))) !! q).

(** An item of a flattened tree that [cirq] can build. *)
Definition valid_item (item : GateOperation + Moment) : Prop :=
  match item with
  | inl op => valid_operation op
  | inr m => valid_moment m
  end.

(** An implementation of [CircuitLibrary] that removes and inserts nothing
    and finds all graphs equal. It is not [cirq]'s; it only serves to run
    statements that hold for every implementation. *)
Definition null_library : CircuitLibrary := {|
  batch_remove c _ := Return c;
  batch_insert c _ := Return c;
  CircuitDag := unit;
  CircuitDag_from_circuit _ := ();
  CircuitDag_eq _ _ := true;
|}.

(** Gates compared as written. It is finer than [cirq]'s equality, which
    identifies exponents that differ by a period of the gate. *)
#[global] Instance Gate_eq_dec : EqDecision Gate.
Proof.
  assert (EqDecision R) by exact Req_dec_T.
  assert (EqDecision np.float64) by solve_decision.
  assert (EqDecision EigenGateClass) by solve_decision.
  solve_decision.
Defined.

Definition written_equality : GateEquality := {|
  Gate_eq g1 g2 := bool_decide (g1 = g2);
|}.

(** * Properties *)

(** ** Real-number and set lemmas *)

Ltac real_cases :=
  repeat match goal with
  | |- context [Rlt_dec ?a ?b] => destruct (Rlt_dec a b); try lra
  | |- context [Req_dec_T ?a ?b] => destruct (Req_dec_T a b); try lra
  end.

Lemma Rpower_base_one (y : R) : Rpower 1 y = 1%R.
Proof. unfold Rpower. rewrite ln_1, Rmult_0_r. apply exp_0. Qed.

Lemma int_truediv_nonzero n d :
  d ≠ 0 → int_truediv n d = Return (IZR n / IZR d)%R.
Proof. intros Hd. unfold int_truediv. by rewrite decide_False. Qed.

Lemma all_qubits_app (a b : Circuit) :
  all_qubits (a ++ b) = all_qubits a ∪ all_qubits b.
Proof. unfold all_qubits. by rewrite fmap_app, union_list_app_L. Qed.

Lemma LineQubit_range_NoDup n : NoDup (LineQubit_range n).
Proof.
  unfold LineQubit_range. apply NoDup_fmap_2; [|apply NoDup_seq].
  intros i j Hij. injection Hij. lia.
Qed.

Lemma size_LineQubit_range n :
  size (list_to_set (LineQubit_range n) : gset Qid) = Z.to_nat n.
Proof.
  rewrite size_list_to_set by apply LineQubit_range_NoDup.
  unfold LineQubit_range. by rewrite length_fmap, length_seq.
Qed.

Lemma elem_of_LineQubit_range n q :
  q ∈ LineQubit_range n ↔ ∃ i, 0 ≤ i < n ∧ q = LineQubit i.
Proof.
  unfold LineQubit_range. rewrite list_elem_of_fmap. split.
  - intros (i & -> & Hi). apply elem_of_seq in Hi.
    exists (Z.of_nat i). split; [lia|done].
  - intros (i & Hi & ->). exists (Z.to_nat i).
    split; [f_equal; lia|]. apply elem_of_seq. lia.
Qed.

(** ** The maximally entangled state *)

Lemma max_ent_state_circuit_2 : _max_ent_state_circuit 2 = Return bell_circuit.
Proof. reflexivity. Qed.

Lemma max_ent_state_circuit_4 :
  _max_ent_state_circuit 4 = Return double_bell_circuit.
Proof. reflexivity. Qed.

Lemma max_ent_state_circuit_other n :
  n ≠ 2 → n ≠ 4 →
  _max_ent_state_circuit n = Raise (NotImplementedError unsupported_message).
Proof.
  intros H2 H4. unfold _max_ent_state_circuit.
  by rewrite !decide_False.
Qed.

(** C6. [_max_ent_state_circuit(2)] is a Hadamard on qubit 0 followed by a
    controlled-NOT from qubit 0 to qubit 1; [_max_ent_state_circuit(4)] is
    Hadamards on qubits 0 and 1 followed by controlled-NOTs from qubit 0 to
    qubit 2 and from qubit 1 to qubit 3. *)
Theorem max_ent_state_circuit_gates :
  _max_ent_state_circuit 2
  = Return [ [GateOp H [LineQubit 0]];
             [GateOp CNOT [LineQubit 0; LineQubit 1]] ]
  ∧ _max_ent_state_circuit 4
    = Return [ [GateOp H [LineQubit 0]; GateOp H [LineQubit 1]];
               [GateOp CNOT [LineQubit 0; LineQubit 2];
                GateOp CNOT [LineQubit 1; LineQubit 3]] ].
Proof. split; reflexivity. Qed.

(** C5. For every integer [num_qubits] other than 2 and 4,
    [_max_ent_state_circuit] raises [NotImplementedError], the unsupported
    size error, and so returns no circuit; for 2 and for 4 it returns a
    circuit. *)
Theorem max_ent_state_circuit_supported (num_qubits : Z) :
  (num_qubits ≠ 2 ∧ num_qubits ≠ 4 →
     _max_ent_state_circuit num_qubits
     = Raise (NotImplementedError unsupported_message)
     ∧ ∀ circ, _max_ent_state_circuit num_qubits ≠ Return circ)
  ∧ (num_qubits = 2 ∨ num_qubits = 4 →
     ∃ circ, _max_ent_state_circuit num_qubits = Return circ).
Proof.
  split.
  - intros [H2 H4]. rewrite max_ent_state_circuit_other by done. done.
  - intros [-> | ->]; eexists; reflexivity.
Qed.

Lemma max_ent_state_circuit_supported_witness :
  (3 ≠ 2 ∧ 3 ≠ 4)
  ∧ _max_ent_state_circuit 3 = Raise (NotImplementedError unsupported_message)
  ∧ (2 = 2 ∨ 2 = 4)
  ∧ ∃ circ, _max_ent_state_circuit 2 = Return circ.
Proof.
  assert (H3 : 3 ≠ 2 ∧ 3 ≠ 4) by (split; lia).
  assert (H2 : 2 = 2 ∨ 2 = 4) by (left; reflexivity).
  split; [exact H3|]. split.
  - exact (proj1 (proj1 (max_ent_state_circuit_supported 3) H3)).
  - split; [exact H2|].
    exact (proj2 (max_ent_state_circuit_supported 2) H2).
Defined.

Lemma bell_circuit_qubits :
  all_qubits bell_circuit = list_to_set (LineQubit_range 2).
Proof. vm_compute. reflexivity. Qed.

Lemma double_bell_circuit_qubits :
  all_qubits double_bell_circuit = list_to_set (LineQubit_range 4).
Proof. vm_compute. reflexivity. Qed.

Lemma bell_circuit_superposed :
  superposed_qubits bell_circuit = list_to_set (LineQubit_range 1).
Proof. vm_compute. reflexivity. Qed.

Lemma double_bell_circuit_superposed :
  superposed_qubits double_bell_circuit = list_to_set (LineQubit_range 2).
Proof. vm_compute. reflexivity. Qed.

(** The qubits of the preparation, and the half it puts in superposition. *)
Lemma max_ent_state_circuit_register (num_qubits : Z) :
  num_qubits = 2 ∨ num_qubits = 4 →
  ∃ prep,
    _max_ent_state_circuit num_qubits = Return prep
    ∧ all_qubits prep = list_to_set (LineQubit_range num_qubits)
    ∧ superposed_qubits prep = list_to_set (LineQubit_range (num_qubits / 2)).
Proof.
  intros [-> | ->].
  - exists bell_circuit. split; [reflexivity|].
    split; [apply bell_circuit_qubits | apply bell_circuit_superposed].
  - exists double_bell_circuit. split; [reflexivity|].
    split; [apply double_bell_circuit_qubits
           | apply double_bell_circuit_superposed].
Qed.

(** ** The Choi circuit *)

Lemma choi_full_circ_prep (circuit prep : Circuit) :
  _max_ent_state_circuit (2 * Z.of_nat (size (all_qubits circuit))) = Return prep →
  choi_full_circ circuit = Return (prep ++ circuit).
Proof. intros Hprep. unfold choi_full_circ. by rewrite Hprep. Qed.

(** C10. For [num_qubits] 2 or 4 the circuit of [_max_ent_state_circuit]
    acts on exactly [LineQubit(0)], ..., [LineQubit(num_qubits - 1)] and on no
    other label. The circuit [_circuit_to_choi] simulates for an input on
    [num_qubits / 2] qubits is that preparation followed by the input, so its
    qubits are those of the preparation together with those of the input; and
    the input acts on the half of the register the preparation puts in
    superposition exactly when its qubits are [LineQubit(0)], ...,
    [LineQubit(n - 1)]. *)
Theorem max_ent_state_circuit_qubits (num_qubits : Z) :
  num_qubits = 2 ∨ num_qubits = 4 →
  ∃ prep,
    _max_ent_state_circuit num_qubits = Return prep
    ∧ all_qubits prep = list_to_set (LineQubit_range num_qubits)
    ∧ (∀ q, q ∈ all_qubits prep ↔ ∃ i, 0 ≤ i < num_qubits ∧ q = LineQubit i)
    ∧ ∀ circuit : Circuit,
        let n := Z.of_nat (size (all_qubits circuit)) in
        2 * n = num_qubits →
        choi_full_circ circuit = Return (prep ++ circuit)
        ∧ all_qubits (prep ++ circuit)
          = list_to_set (LineQubit_range num_qubits) ∪ all_qubits circuit
        ∧ (all_qubits circuit = superposed_qubits prep
           ↔ all_qubits circuit = list_to_set (LineQubit_range n)).
Proof.
  intros Hn.
  destruct (max_ent_state_circuit_register num_qubits Hn)
    as (prep & Hprep & Hqubits & Hsup).
  exists prep. split; [done|]. split; [done|]. split.
  - intros q. rewrite Hqubits, elem_of_list_to_set.
    apply elem_of_LineQubit_range.
  - intros circuit n Hsize. split; [|split].
    + apply choi_full_circ_prep. fold n. by rewrite Hsize.
    + by rewrite all_qubits_app, Hqubits.
    + rewrite Hsup. replace (num_qubits / 2) with n; [done|].
      rewrite <- Hsize. rewrite Z.mul_comm. by rewrite Z.div_mul.
Qed.

Lemma max_ent_state_circuit_qubits_witness :
  (2 = 2 ∨ 2 = 4)
  ∧ ∃ prep,
      _max_ent_state_circuit 2 = Return prep
      ∧ all_qubits prep = list_to_set (LineQubit_range 2).
Proof.
  assert (Hn : 2 = 2 ∨ 2 = 4) by (left; reflexivity).
  split; [exact Hn|].
  destruct (max_ent_state_circuit_qubits 2 Hn) as (prep & Hprep & Hq & _).
  exists prep. split; [exact Hprep | exact Hq].
Defined.

Lemma pow2_shape_inj (a b : nat) :
  ((2 ^ N.of_nat a, 2 ^ N.of_nat a) = (2 ^ N.of_nat b, 2 ^ N.of_nat b))%N ↔ a = b.
Proof.
  split; [|by intros ->].
  intros Heq. injection Heq as Heq _.
  apply N.pow_inj_r in Heq; lia.
Qed.

(** C1, amended. For every input circuit on [n] distinct qubits, [n] being 1
    or 2, [_circuit_to_choi] returns a density matrix of dimension
    [2^d x 2^d], where [d] counts the qubits [LineQubit(0)], ...,
    [LineQubit(2n - 1)] together with those of the input; the dimension is
    [2^(2n) x 2^(2n)] exactly when every qubit of the input is one of
    [LineQubit(0)], ..., [LineQubit(2n - 1)]. *)
Theorem circuit_to_choi_dimension {sim : DensityMatrixSimulator}
    (circuit : Circuit) :
  let n := size (all_qubits circuit) in
  let register : gset Qid := list_to_set (LineQubit_range (2 * Z.of_nat n)) in
  n = 1%nat ∨ n = 2%nat →
  ∃ m,
    _circuit_to_choi circuit = Return m
    ∧ (let d := N.of_nat (size (register ∪ all_qubits circuit)) in
       shape m = (2 ^ d, 2 ^ d)%N)
    ∧ (shape m = (2 ^ N.of_nat (2 * n), 2 ^ N.of_nat (2 * n))%N
       ↔ all_qubits circuit ⊆ register).
Proof.
  intros n register Hn.
  assert (∃ prep,
    _max_ent_state_circuit (2 * Z.of_nat n) = Return prep
    ∧ all_qubits prep = register) as (prep & Hprep & Hqubits).
  { destruct (max_ent_state_circuit_register (2 * Z.of_nat n))
      as (prep & ? & ? & _); [lia | by exists prep]. }
  exists (simulate_final_density_matrix (prep ++ circuit)).
  assert (Hshape : shape (simulate_final_density_matrix (prep ++ circuit))
    = (2 ^ N.of_nat (size (register ∪ all_qubits circuit)),
       2 ^ N.of_nat (size (register ∪ all_qubits circuit)))%N).
  { by rewrite simulate_shape, all_qubits_app, Hqubits. }
  split; [|split].
  - unfold _circuit_to_choi.
    by rewrite (choi_full_circ_prep circuit prep Hprep).
  - exact Hshape.
  - rewrite Hshape, pow2_shape_inj.
    assert (Hsize : size register = (2 * n)%nat).
    { unfold register. rewrite size_LineQubit_range. lia. }
    split.
    + intros Hd.
      assert (register = register ∪ all_qubits circuit) as Heq.
      { apply set_subseteq_size_eq; [apply union_subseteq_l | lia]. }
      rewrite Heq. apply union_subseteq_r.
    + intros Hsub.
      rewrite (union_comm_L register), (subseteq_union_1_L _ _ Hsub).
      done.
Qed.

Lemma circuit_to_choi_dimension_witness :
  size (all_qubits [[GateOp H [LineQubit 0]]]) = 1%nat
  ∧ ∃ m,
      @_circuit_to_choi shape_simulator [[GateOp H [LineQubit 0]]] = Return m
      ∧ @shape shape_simulator m = (4, 4)%N.
Proof.
  split; [reflexivity|].
  destruct (@circuit_to_choi_dimension shape_simulator
              [[GateOp H [LineQubit 0]]] (or_introl eq_refl))
    as (m & Hm & Hshape & _).
  exists m. split; [exact Hm|].
  rewrite Hshape. vm_compute. reflexivity.
Defined.

(** C1, as stated, fails: the input circuit with the single operation
    [H(LineQubit(5))] touches one qubit, and its Choi matrix is 8 x 8, not
    4 x 4, because the simulated circuit acts on [LineQubit(0)],
    [LineQubit(1)] and [LineQubit(5)]. *)
Lemma circuit_to_choi_dimension_counterexample :
  let circuit := [[GateOp H [LineQubit 5]]] in
  size (all_qubits circuit) = 1%nat
  ∧ ∃ m,
      @_circuit_to_choi shape_simulator circuit = Return m
      ∧ @shape shape_simulator m = (8, 8)%N
      ∧ @shape shape_simulator m ≠ (2 ^ (2 * 1), 2 ^ (2 * 1))%N.
Proof.
  split; [reflexivity|].
  eexists. split; [reflexivity|]. split; [vm_compute; reflexivity|].
  vm_compute. discriminate.
Qed.

Lemma bind_Return_inv {A B} (m : result A) (f : A → result B) b :
  m ≫= f = Return b → ∃ a, m = Return a ∧ f a = Return b.
Proof. destruct m as [a|e]; [eauto | discriminate]. Qed.

Lemma mapM_Return_inv {A B} (f : A → result B) (l : list A) (l' : list B) :
  mapM f l = Return l' → ∀ x, x ∈ l → ∃ y, f x = Return y.
Proof.
  revert l'. induction l as [|a l IH]; intros l' Hl x Hx.
  - by apply elem_of_nil in Hx.
  - cbn in Hl. apply bind_Return_inv in Hl as (y & Hy & Hl).
    apply bind_Return_inv in Hl as (k & Hk & _).
    apply elem_of_cons in Hx as [-> | Hx]; [eauto | by eapply IH].
Qed.

Lemma elem_of_all_qubits (c : Circuit) q :
  q ∈ all_qubits c ↔ ∃ m op, m ∈ c ∧ op ∈ m ∧ q ∈ qubits op.
Proof.
  unfold all_qubits, moment_qubits. rewrite elem_of_union_list. split.
  - intros (X & HX & Hq). apply list_elem_of_fmap in HX as (m & -> & Hm).
    apply elem_of_union_list in Hq as (Y & HY & Hq).
    apply list_elem_of_fmap in HY as (op & -> & Hop).
    apply elem_of_list_to_set in Hq. eauto.
  - intros (m & op & Hm & Hop & Hq). eexists. split.
    + apply list_elem_of_fmap. eauto.
    + apply elem_of_union_list. eexists. split.
      * apply list_elem_of_fmap. eauto.
      * by apply elem_of_list_to_set.
Qed.

Lemma transform_qubits_Return_inv func (c c' : Circuit) :
  transform_qubits func c = Return c' →
  ∀ q, q ∈ all_qubits c → ∃ q', func q = Return q'.
Proof.
  intros Hc q Hq. apply elem_of_all_qubits in Hq as (m & op & Hm & Hop & Hq).
  unfold transform_qubits in Hc.
  destruct (mapM_Return_inv _ _ _ Hc m Hm) as (m' & Hm').
  unfold transform_moment in Hm'.
  apply bind_Return_inv in Hm' as (ops & Hops & _).
  destruct (mapM_Return_inv _ _ _ Hops op Hop) as (op' & Hop').
  unfold transform_operation in Hop'.
  apply bind_Return_inv in Hop' as (qs & Hqs & _).
  by apply (mapM_Return_inv _ _ _ Hqs).
Qed.

Lemma length_sorted (s : gset Qid) : length (sorted s) = size s.
Proof. unfold sorted. by rewrite merge_sort_Permutation. Qed.


Lemma size_le_length (s : gset Qid) (l : list Qid) :
  (∀ q, q ∈ s → q ∈ l) → (size s ≤ length l)%nat.
Proof.
  intros Hsub. change (size s) with (length (elements s)).
  apply submseteq_length, NoDup_submseteq; [apply NoDup_elements|].
  intros q Hq. apply Hsub. by apply elem_of_elements in Hq.
Qed.

Lemma dict_lookup_Some pairs q q' :
  dict pairs !! q = Some q' → q ∈ pairs.*1.
Proof.
  unfold dict. intros Hq.
  apply elem_of_list_to_map_2 in Hq. rewrite elem_of_reverse in Hq.
  apply list_elem_of_fmap. exists (q, q'). split; [reflexivity | exact Hq].
Qed.

(** ** Circuit equality *)

Section equal_props.
Context {lib : CircuitLibrary}.

(** With [require_qubit_equality=False], a first circuit with more distinct
    qubits than the second always ends in an exception. *)
Lemma equal_more_qubits_raises (circuit_one circuit_two : object Circuit) rm :
  id circuit_one ≠ id circuit_two →
  (size (all_qubits (value circuit_two)) < size (all_qubits (value circuit_one)))%nat →
  ∃ e, _equal circuit_one circuit_two false rm = Raise e.
Proof.
  intros Hid Hsize. unfold _equal, is_. rewrite bool_decide_false by done.
  cbn [negb]. unfold deepcopy.
  set (qubit_map := dict _).
  destruct (transform_qubits _ (value circuit_one)) as [c1'|e] eqn:Ht; [|by exists e].
  exfalso.
  pose proof (transform_qubits_Return_inv _ _ _ Ht) as Hall.
  assert (size (all_qubits (value circuit_one))
          ≤ length ((zip (sorted (all_qubits (value circuit_one)))
                         (sorted (all_qubits (value circuit_two)))).*1))%nat as Hle.
  { apply size_le_length. intros q Hq.
    destruct (Hall q Hq) as (q' & Hq').
    destruct (qubit_map !! q) as [q''|] eqn:Hlook; [|discriminate].
    by eapply dict_lookup_Some. }
  rewrite length_fmap, length_zip, !length_sorted in Hle. lia.
Qed.
(** The call with the two circuits exchanged, the smaller one first, finds
    every qubit in the map and returns a verdict. *)
Lemma equal_fewer_qubits_returns :
  ∃ verdict,
    _equal (Object 2%positive [[GateOp H [LineQubit 0]]])
           (Object 1%positive
              [[GateOp H [LineQubit 0]; GateOp H [LineQubit 1]]])
           false true
    = Return verdict.
Proof. eexists. vm_compute. reflexivity. Qed.

(** C2, at a failing input. The first circuit applies a Hadamard to
    [LineQubit(0)] and to [LineQubit(1)], the second to [LineQubit(0)] only.
    With [require_qubit_equality=False] the qubit map pairs [LineQubit(0)]
    with [LineQubit(0)] and has no entry for [LineQubit(1)]: the call
    raises [KeyError] and returns no verdict. *)
Theorem equal_more_qubits_key_error (require_measurement_equality : bool) :
  _equal (Object 1%positive
            [[GateOp H [LineQubit 0]; GateOp H [LineQubit 1]]])
         (Object 2%positive [[GateOp H [LineQubit 0]]])
         false require_measurement_equality
  = Raise (KeyError (LineQubit 1)).
Proof. vm_compute. reflexivity. Qed.

(** C7. [_equal(C, C)] is [True] for every circuit object [C], whatever
    operations it holds (measurements with distinct keys included) and for
    every combination of the two flags. *)
Theorem equal_reflexive (C : object Circuit)
    (require_qubit_equality require_measurement_equality : bool) :
  _equal C C require_qubit_equality require_measurement_equality
  = Return true.
Proof. unfold _equal, is_. by rewrite bool_decide_true. Qed.
End equal_props.

(** ** The tomography circuit *)

Lemma float_truediv_int_nonzero x d :
  d ≠ 0 → Z.abs d < float_max_int →
  float_truediv_int x d = Return (np.divide x (np.Fin (IZR d))).
Proof.
  intros Hd Hfit. unfold float_truediv_int, int_to_float.
  rewrite decide_True by done. cbn [mbind result_bind].
  by rewrite decide_False.
Qed.

Lemma float_truediv_int_overflow x d :
  float_max_int ≤ Z.abs d →
  float_truediv_int x d
  = Raise (OverflowError "int too large to convert to float").
Proof.
  intros Hbig. unfold float_truediv_int, int_to_float.
  by rewrite decide_False by lia.
Qed.

Lemma pmt_loop_body_mismatch qubits gate rotation_angle moments :
  class_num_qubits gate ≠ length qubits →
  pmt_loop_body qubits gate rotation_angle moments
  = Raise (CircuitMismatchException mismatch_message).
Proof. intros Harity. unfold pmt_loop_body. by rewrite bool_decide_false. Qed.

(** C8, amended. For every depth of at least 1 and every gate class whose
    arity differs from the number of qubits supplied,
    [_generate_pmt_circuit] returns no circuit: it raises
    [CircuitMismatchException] when the depth converts to a float, that is
    below [2^1024 - 2^970], and [OverflowError], from the division
    [2*pi / depth], otherwise. *)
Theorem generate_pmt_circuit_mismatch (qubits : list Qid) (depth : Z)
    (gate : EigenGateClass) :
  1 ≤ depth →
  class_num_qubits gate ≠ length qubits →
  _generate_pmt_circuit qubits depth gate
  = if decide (depth < float_max_int)
    then Raise (CircuitMismatchException mismatch_message)
    else Raise (OverflowError "int too large to convert to float").
Proof.
  intros Hdepth Harity. unfold _generate_pmt_circuit.
  destruct (decide (depth < float_max_int)) as [Hfit|Hbig].
  - rewrite float_truediv_int_nonzero by lia. cbn [mbind result_bind].
    unfold for_range. destruct (Z.to_nat depth) as [|n] eqn:Hn; [lia|].
    cbn [for_range_nat]. by rewrite pmt_loop_body_mismatch.
  - by rewrite float_truediv_int_overflow by lia.
Qed.

Lemma generate_pmt_circuit_mismatch_witness :
  1 ≤ 100
  ∧ class_num_qubits CNotPowGate ≠ length [LineQubit 0]
  ∧ _generate_pmt_circuit [LineQubit 0] 100 CNotPowGate
    = Raise (CircuitMismatchException mismatch_message).
Proof.
  assert (Hdepth : 1 ≤ 100) by lia.
  assert (Harity : class_num_qubits CNotPowGate ≠ length [LineQubit 0])
    by (simpl; lia).
  split; [exact Hdepth|]. split; [exact Harity|].
  exact (generate_pmt_circuit_mismatch [LineQubit 0] 100 CNotPowGate
           Hdepth Harity).
Defined.

(** C8, as stated, fails: with depth -1 the loop body, and the arity check
    in it, never runs, and the one-qubit gate class [XPowGate] on two qubits
    gives the empty circuit; with depth 0 the division raises
    [ZeroDivisionError] first, and with depth [2^1024] it raises
    [OverflowError] first. *)
Lemma generate_pmt_circuit_mismatch_counterexample :
  class_num_qubits XPowGate ≠ length [LineQubit 0; LineQubit 1]
  ∧ _generate_pmt_circuit [LineQubit 0; LineQubit 1] (-1) XPowGate = Return []
  ∧ _generate_pmt_circuit [LineQubit 0; LineQubit 1] 0 XPowGate
    = Raise (ZeroDivisionError "float division by zero")
  ∧ _generate_pmt_circuit [LineQubit 0; LineQubit 1] (2 ^ 1024) XPowGate
    = Raise (OverflowError "int too large to convert to float").
Proof. split; [simpl; lia|]. repeat split; reflexivity. Qed.

(** ** Poor man's tomography *)

Lemma utils_globals_get_base_gate : utils_globals !! "_get_base_gate" = None.
Proof. reflexivity. Qed.

(** C9. [_get_base_gate] is not among the names [mitiq/utils.py] defines or
    imports, nor a built-in; so every call of [_poor_mans_tomography] ends in
    [NameError] before any circuit reaches the executor, and no call returns
    a value for sigma. *)
Theorem poor_mans_tomography_name_error
    (executor : Circuit → result np.float64) (gate : Gate) (qubit : Qid)
    (depth : Z) :
  ("_get_base_gate" ∉ utils_names)
  ∧ ("_get_base_gate" ∉ builtins)
  ∧ _poor_mans_tomography utils_globals executor gate qubit depth
    = MkExec [] (Raise (NameError "_get_base_gate"))
  ∧ ∀ sigma,
      outcome (_poor_mans_tomography utils_globals executor gate qubit depth)
      ≠ Return sigma.
Proof.
  assert (Hrun : _poor_mans_tomography utils_globals executor gate qubit depth
                 = MkExec [] (Raise (NameError "_get_base_gate")))
    by reflexivity.
  split; [refine (bool_decide_unpack _ _); vm_compute; exact I|].
  split; [refine (bool_decide_unpack _ _); vm_compute; exact I|].
  split; [exact Hrun|].
  intros sigma. rewrite Hrun. discriminate.
Qed.

(** C4, at a failing input. With an executor that always returns 1, the gate
    [H], qubit [LineQubit(0)] and the default depth 100, the call raises
    [NameError] and the executor is never called. *)
Theorem poor_mans_tomography_noiseless_run :
  _poor_mans_tomography utils_globals (λ _, Return (np.Fin 1)) H
    (LineQubit 0) 100
  = MkExec [] (Raise (NameError "_get_base_gate")).
Proof. reflexivity. Qed.

Lemma tomography_Q_noiseless depth :
  depth ≠ 0 → tomography_Q (np.Fin 1) depth = Return (np.Fin 0).
Proof.
  intros Hd. unfold tomography_Q. rewrite int_truediv_nonzero by done.
  cbn. unfold np.power.
  destruct (Req_dec_T _ 0) as [Hy|Hy]; cbn.
  - real_cases. f_equal. f_equal. lra.
  - real_cases. replace (2 * 1 - 1)%R with 1%R by lra.
    rewrite Rpower_base_one. cbn. real_cases. f_equal. f_equal. lra.
Qed.

Lemma tomography_sigma_noiseless : tomography_sigma (np.Fin 0) = np.Fin 0.
Proof.
  unfold tomography_sigma. cbn. real_cases.
  f_equal. replace (1 - 2 * 0)%R with 1%R by lra. rewrite ln_1. lra.
Qed.

(** The run of [_poor_mans_tomography] once the base gate resolves, the
    circuit is built and the executor answers. *)
Lemma poor_mans_tomography_run (globals : gmap string pyobject) executor gate
    qubit depth f base_gate circuit expectation Q :
  globals !! "_get_base_gate" = Some (PyGateFunction f) →
  f gate = Return base_gate →
  _generate_pmt_circuit [qubit] depth base_gate = Return circuit →
  executor circuit = Return expectation →
  tomography_Q expectation depth = Return Q →
  _poor_mans_tomography globals executor gate qubit depth
  = MkExec [circuit] (Return (tomography_sigma Q)).
Proof.
  intros Hname Hf Hcirc Hexec HQ. unfold _poor_mans_tomography, resolve.
  rewrite Hname. cbn. rewrite Hf. cbn. rewrite Hcirc. cbn.
  rewrite Hexec. cbn. rewrite HQ. reflexivity.
Qed.

(** What C4 describes, in a module where [_get_base_gate] is bound: an
    executor that always returns 1 gives [Q = 0] and [sigma = 0] at every
    depth of at least 1. *)
Lemma poor_mans_tomography_noiseless (globals : gmap string pyobject) gate
    qubit depth f base_gate circuit :
  1 ≤ depth →
  globals !! "_get_base_gate" = Some (PyGateFunction f) →
  f gate = Return base_gate →
  _generate_pmt_circuit [qubit] depth base_gate = Return circuit →
  tomography_Q (np.Fin 1) depth = Return (np.Fin 0)
  ∧ _poor_mans_tomography globals (λ _, Return (np.Fin 1)) gate qubit depth
    = MkExec [circuit] (Return (np.Fin 0)).
Proof.
  intros Hdepth Hname Hf Hcirc.
  assert (HQ : tomography_Q (np.Fin 1) depth = Return (np.Fin 0))
    by (apply tomography_Q_noiseless; lia).
  split; [exact HQ|].
  rewrite (poor_mans_tomography_run globals _ gate qubit depth f base_gate
             circuit (np.Fin 1) (np.Fin 0)) by done.
  by rewrite tomography_sigma_noiseless.
Qed.

(** * Further properties *)

(** ** The tomography circuit, continued *)

Lemma on_valid (g : Gate) (qs : list Qid) :
  length qs = gate_num_qubits g → NoDup qs → on g qs = Return (GateOp g qs).
Proof.
  intros Hlen Hnodup. unfold on, has_duplicates.
  rewrite bool_decide_true by done. cbn [negb].
  rewrite bool_decide_false; [done|]. by intros Hdup.
Qed.

Lemma pmt_loop_body_valid qubits gate rotation_angle moments :
  class_num_qubits gate = length qubits → NoDup qubits →
  pmt_loop_body qubits gate rotation_angle moments
  = Return (moments ++ [[GateOp (EigenGate gate rotation_angle) qubits]]).
Proof.
  intros Harity Hnodup. unfold pmt_loop_body.
  rewrite bool_decide_true by done. cbn [negb].
  rewrite on_valid by done. reflexivity.
Qed.

Lemma for_range_nat_pmt qubits gate rotation_angle n moments :
  class_num_qubits gate = length qubits → NoDup qubits →
  for_range_nat n (pmt_loop_body qubits gate rotation_angle) moments
  = Return (moments
            ++ replicate n [GateOp (EigenGate gate rotation_angle) qubits]).
Proof.
  intros Harity Hnodup. revert moments.
  induction n as [|n IH]; intros moments; cbn [for_range_nat replicate].
  - by rewrite app_nil_r.
  - rewrite pmt_loop_body_valid by done. cbn [mbind result_bind].
    rewrite IH. by rewrite <- app_assoc.
Qed.

(** X1. With a depth of at least 1 that converts to a float, a gate class
    whose arity is the number of qubits and qubits that are pairwise
    distinct, [_generate_pmt_circuit] returns a circuit of exactly [depth]
    moments, each holding the single operation [gate(exponent =
    rotation_angle)] on the given qubits, [rotation_angle] being the float
    [2*np.pi / depth] of the first line of the body. *)
Theorem generate_pmt_circuit_moments (qubits : list Qid) (depth : Z)
    (gate : EigenGateClass) :
  let rotation_angle :=
    np.divide (np.multiply (np.Fin 2) np.pi) (np.Fin (IZR depth)) in
  1 ≤ depth →
  depth < float_max_int →
  class_num_qubits gate = length qubits →
  NoDup qubits →
  _generate_pmt_circuit qubits depth gate
  = Return (replicate (Z.to_nat depth)
              [GateOp (EigenGate gate rotation_angle) qubits]).
Proof.
  intros rotation_angle Hdepth Hfit Harity Hnodup.
  unfold _generate_pmt_circuit.
  rewrite float_truediv_int_nonzero by lia. cbn [mbind result_bind].
  unfold for_range. by rewrite for_range_nat_pmt.
Qed.

Lemma generate_pmt_circuit_moments_witness :
  1 ≤ 3
  ∧ 3 < float_max_int
  ∧ class_num_qubits ZPowGate = length [LineQubit 7]
  ∧ NoDup [LineQubit 7]
  ∧ _generate_pmt_circuit [LineQubit 7] 3 ZPowGate
    = Return (replicate 3
                [GateOp (EigenGate ZPowGate
                           (np.divide (np.multiply (np.Fin 2) np.pi)
                              (np.Fin 3)))
                   [LineQubit 7]]).
Proof.
  assert (Hdepth : 1 ≤ 3) by lia.
  assert (Hfit : 3 < float_max_int) by reflexivity.
  assert (Harity : class_num_qubits ZPowGate = length [LineQubit 7])
    by reflexivity.
  assert (Hnodup : NoDup [LineQubit 7]) by (apply NoDup_singleton).
  split; [exact Hdepth|]. split; [exact Hfit|].
  split; [exact Harity|]. split; [exact Hnodup|].
  exact (generate_pmt_circuit_moments [LineQubit 7] 3 ZPowGate
           Hdepth Hfit Harity Hnodup).
Defined.

(** X2. Below depth 1 the qubits and the gate are not checked at all: for
    every list of qubits and every gate class, depth 0 gives
    [ZeroDivisionError], a negative depth that converts to a float gives the
    empty circuit, and a negative depth that does not, at or below
    [-(2^1024 - 2^970)], gives [OverflowError]. *)
Theorem generate_pmt_circuit_nonpositive_depth (qubits : list Qid)
    (depth : Z) (gate : EigenGateClass) :
  depth ≤ 0 →
  _generate_pmt_circuit qubits depth gate
  = if decide (depth ≤ - float_max_int)
    then Raise (OverflowError "int too large to convert to float")
    else if decide (depth = 0)
    then Raise (ZeroDivisionError "float division by zero")
    else Return [].
Proof.
  intros Hdepth. unfold _generate_pmt_circuit.
  destruct (decide (depth ≤ - float_max_int)) as [Hbig|Hfit].
  - by rewrite float_truediv_int_overflow by lia.
  - destruct (decide (depth = 0)) as [->|Hne]; [reflexivity|].
    rewrite float_truediv_int_nonzero by lia. cbn [mbind result_bind].
    unfold for_range. replace (Z.to_nat depth) with 0%nat by lia.
    reflexivity.
Qed.

Lemma generate_pmt_circuit_nonpositive_depth_witness :
  -5 ≤ 0
  ∧ _generate_pmt_circuit [LineQubit 0; LineQubit 0; LineQubit 1] (-5) HPowGate
    = Return [].
Proof.
  assert (Hdepth : -5 ≤ 0) by lia.
  split; [exact Hdepth|].
  exact (generate_pmt_circuit_nonpositive_depth
           [LineQubit 0; LineQubit 0; LineQubit 1] (-5) HPowGate Hdepth).
Defined.

(** X3. With a depth of at least 1 that converts to a float and the right
    number of qubits, a qubit given twice is refused by [cirq] when the
    operation is built: the call raises [ValueError], not
    [CircuitMismatchException]. *)
Theorem generate_pmt_circuit_duplicate_qubits (qubits : list Qid)
    (depth : Z) (gate : EigenGateClass) :
  1 ≤ depth →
  depth < float_max_int →
  class_num_qubits gate = length qubits →
  ¬ NoDup qubits →
  _generate_pmt_circuit qubits depth gate
  = Raise (ValueError "Duplicate qids for gate").
Proof.
  intros Hdepth Hfit Harity Hdup. unfold _generate_pmt_circuit.
  rewrite float_truediv_int_nonzero by lia. cbn [mbind result_bind].
  unfold for_range. destruct (Z.to_nat depth) as [|n] eqn:Hn; [lia|].
  cbn [for_range_nat].
  assert (Hbody : ∀ angle moments,
    pmt_loop_body qubits gate angle moments
    = Raise (ValueError "Duplicate qids for gate")).
  { intros angle moments. unfold pmt_loop_body, on, has_duplicates.
    rewrite bool_decide_true by done. cbn [negb gate_num_qubits].
    rewrite bool_decide_true by done. cbn [negb].
    by rewrite bool_decide_true. }
  by rewrite Hbody.
Qed.

Lemma generate_pmt_circuit_duplicate_qubits_witness :
  1 ≤ 10
  ∧ 10 < float_max_int
  ∧ class_num_qubits CZPowGate = length [LineQubit 4; LineQubit 4]
  ∧ ¬ NoDup [LineQubit 4; LineQubit 4]
  ∧ _generate_pmt_circuit [LineQubit 4; LineQubit 4] 10 CZPowGate
    = Raise (ValueError "Duplicate qids for gate").
Proof.
  assert (Hdepth : 1 ≤ 10) by lia.
  assert (Harity : class_num_qubits CZPowGate
                   = length [LineQubit 4; LineQubit 4]) by reflexivity.
  assert (Hdup : ¬ NoDup [LineQubit 4; LineQubit 4]).
  { intros Hn. apply NoDup_cons in Hn as [Hn _]. apply Hn. by left. }
  assert (Hfit : 10 < float_max_int) by reflexivity.
  split; [exact Hdepth|]. split; [exact Hfit|].
  split; [exact Harity|]. split; [exact Hdup|].
  exact (generate_pmt_circuit_duplicate_qubits [LineQubit 4; LineQubit 4] 10
           CZPowGate Hdepth Hfit Harity Hdup).
Defined.

(** ** Building circuits *)

Lemma operates_on_true (m : Moment) (qs : list Qid) :
  operates_on m qs = true ↔ ∃ op q, op ∈ m ∧ q ∈ qs ∧ q ∈ qubits op.
Proof.
  unfold operates_on. rewrite existsb_exists. split.
  - intros (op & Hop & Hq). apply existsb_exists in Hq as (q & Hq & Hin).
    apply bool_decide_eq_true in Hin.
    exists op, q. split; [by apply list_elem_of_In|].
    split; [by apply list_elem_of_In|done].
  - intros (op & q & Hop & Hq & Hin). exists op.
    split; [by apply list_elem_of_In|].
    apply existsb_exists. exists q.
    split; [by apply list_elem_of_In | by apply bool_decide_eq_true].
Qed.

Lemma operates_on_false (m : Moment) (qs : list Qid) :
  operates_on m qs = false ↔ ∀ op q, op ∈ m → q ∈ qs → q ∉ qubits op.
Proof.
  rewrite <- not_true_iff_false, operates_on_true. split.
  - intros Hno op q Hop Hq Hin. apply Hno. eauto.
  - intros Hall (op & q & Hop & Hq & Hin). by eapply Hall.
Qed.

Lemma Moment_new_Return_inv (op : GateOperation) (rest m : Moment) :
  Moment_new (op :: rest) = Return m →
  m = op :: rest
  ∧ Moment_new rest = Return rest
  ∧ operates_on rest (qubits op) = false.
Proof.
  revert op m. induction rest as [|op' rest IH]; intros op m; cbn.
  - intros [= <-]. done.
  - intros Hm. apply bind_Return_inv in Hm as (m' & Hm' & Hm).
    destruct (IH op' m' Hm') as (-> & Hrest & Hfree).
    destruct (operates_on (op' :: rest) (qubits op)) eqn:Hop; [done|].
    injection Hm as <-. repeat split; [|done].
    cbn in Hm'. done.
Qed.

Lemma Moment_new_valid (m m' : Moment) : Moment_new m = Return m' → m' = m.
Proof.
  destruct m as [|op rest]; [by intros [= <-]|].
  intros Hm. by apply Moment_new_Return_inv in Hm as (-> & _).
Qed.

(** [Moment] accepts a list of operations exactly when no operation shares a
    qubit with a later one. *)
Lemma Moment_new_cons (op : GateOperation) (rest : Moment) :
  Moment_new (op :: rest) = Return (op :: rest)
  ↔ Moment_new rest = Return rest ∧ operates_on rest (qubits op) = false.
Proof.
  split.
  - intros Hm. by apply Moment_new_Return_inv in Hm as (_ & ? & ?).
  - intros [Hrest Hfree]. cbn. rewrite Hrest. cbn. by rewrite Hfree.
Qed.

Lemma Moment_new_snoc (m : Moment) (op : GateOperation) :
  Moment_new m = Return m →
  operates_on m (qubits op) = false →
  Moment_new (m ++ [op]) = Return (m ++ [op]).
Proof.
  induction m as [|x m IH]; intros Hm Hfree; [reflexivity|].
  apply Moment_new_cons in Hm as [Hm Hx].
  rewrite <- app_comm_cons. apply Moment_new_cons. split.
  - apply IH; [done|]. apply operates_on_false. intros op' q Hop' Hq.
    rewrite operates_on_false in Hfree. apply Hfree; [by right|done].
  - apply operates_on_false. intros op' q Hop' Hq Hin.
    apply elem_of_app in Hop' as [Hop'|Hop'].
    + rewrite operates_on_false in Hx. by eapply Hx.
    + apply list_elem_of_singleton in Hop' as ->.
      rewrite operates_on_false in Hfree.
      eapply (Hfree x q); [by left|done|done].
Qed.

(** Where [append] puts an operation: at the end, or in a moment none of
    whose operations shares a qubit with it. *)
Lemma prev_moment_available_spec (c : Circuit) (op : GateOperation)
    (k last : nat) :
  let p := prev_moment_available c op k last in
  p = last
  ∨ (p < k)%nat ∧ ∃ m, c !! p = Some m ∧ operates_on m (qubits op) = false.
Proof.
  revert last. induction k as [|k IH]; intros last; cbn; [by left|].
  destruct (c !! k) as [m|] eqn:Hm.
  - destruct (operates_on m (qubits op)) eqn:Hop; [by left|].
    destruct (IH k) as [->|(Hlt & m' & Hm' & Hfree)].
    + right. split; [lia|]. eauto.
    + right. split; [lia|]. eauto.
  - destruct (IH last) as [->|(Hlt & m' & Hm' & Hfree)]; [by left|].
    right. split; [lia|]. eauto.
Qed.

Lemma append_cases (c : Circuit) (op : GateOperation) :
  append c op = c ++ [[op]]
  ∨ ∃ p m, c !! p = Some m
      ∧ operates_on m (qubits op) = false
      ∧ append c op = <[p := m ++ [op]]> c.
Proof.
  unfold append.
  pose proof (prev_moment_available_spec c op (length c) (length c)) as Hspec.
  cbn zeta in Hspec.
  remember (prev_moment_available c op (length c) (length c)) as p eqn:Hp'.
  clear Hp'. destruct Hspec as [Hp|(Hlt & m & Hm & Hfree)].
  - left. rewrite Hp. by rewrite decide_True.
  - right. exists p, m. rewrite decide_False by lia.
    unfold Circuit, Moment in *.
    split; [done|]. split; [done|].
    apply list_eq. intros i. destruct (decide (i = p)) as [->|Hne].
    + rewrite list_lookup_alter_eq, Hm. cbn.
      by rewrite list_lookup_insert_eq by lia.
    + rewrite list_lookup_alter_ne by done.
      by rewrite list_lookup_insert_ne.
Qed.

Lemma all_operations_app (a b : Circuit) :
  all_operations (a ++ b) = all_operations a ++ all_operations b.
Proof. apply join_app. Qed.

Lemma all_operations_singleton (m : Moment) : all_operations [m] = m.
Proof. apply app_nil_r. Qed.

Lemma all_operations_insert (c : Circuit) (p : nat) (m : Moment)
    (op : GateOperation) :
  c !! p = Some m →
  all_operations (<[p := m ++ [op]]> c) ≡ₚ all_operations c ++ [op].
Proof.
  unfold all_operations. revert p.
  induction c as [|m0 c IH]; intros p Hp; [done|].
  destruct p as [|p]; cbn in *.
  - injection Hp as ->. rewrite <- !app_assoc.
    f_equiv. apply Permutation_app_comm.
  - rewrite (IH p Hp). by rewrite app_assoc.
Qed.

Lemma all_operations_append (c : Circuit) (op : GateOperation) :
  all_operations (append c op) ≡ₚ all_operations c ++ [op].
Proof.
  destruct (append_cases c op) as [->|(p & m & Hm & _ & ->)].
  - by rewrite all_operations_app, all_operations_singleton.
  - by apply all_operations_insert.
Qed.

Lemma items_operations_cons (item : GateOperation + Moment) items :
  items_operations (item :: items)
  = match item with inl op => [op] | inr m => m end ++ items_operations items.
Proof. reflexivity. Qed.

Lemma all_operations_items (items : list (GateOperation + Moment)) (c : Circuit) :
  all_operations (foldl insert_item c items)
  ≡ₚ all_operations c ++ items_operations items.
Proof.
  revert c. induction items as [|item items IH]; intros c.
  - cbn. by rewrite app_nil_r.
  - change (foldl insert_item c (item :: items))
      with (foldl insert_item (insert_item c item) items).
    rewrite IH, items_operations_cons, app_assoc. f_equiv.
    destruct item as [op|m]; cbn [insert_item].
    + apply all_operations_append.
    + by rewrite all_operations_app, all_operations_singleton.
Qed.

Lemma all_qubits_operations (c : Circuit) :
  all_qubits c = ⋃ ((λ op, list_to_set (qubits op)) <$> all_operations c).
Proof.
  unfold all_qubits, moment_qubits, all_operations.
  induction c as [|m c IH]; [done|]. cbn.
  by rewrite fmap_app, union_list_app_L, IH.
Qed.

(** X8. [Circuit(operation_tree)], the circuit [_operation_to_choi] builds,
    holds exactly the operations of the tree, each once: the operations of
    the circuit are a permutation of those of the flattened tree, and so the
    circuit acts on exactly their qubits. *)
Theorem Circuit_of_tree_operations (operation_tree : OP_TREE) :
  let ops := items_operations (flatten_to_ops_or_moments operation_tree) in
  all_operations (Circuit_of_tree operation_tree) ≡ₚ ops
  ∧ all_qubits (Circuit_of_tree operation_tree)
    = ⋃ ((λ op, list_to_set (qubits op)) <$> ops).
Proof.
  intros ops.
  assert (Hperm : all_operations (Circuit_of_tree operation_tree) ≡ₚ ops).
  { unfold Circuit_of_tree, Circuit_of_items. by rewrite all_operations_items. }
  split; [done|].
  rewrite all_qubits_operations. apply set_eq. intros q.
  rewrite !elem_of_union_list. by setoid_rewrite Hperm.
Qed.

Lemma valid_moment_singleton (op : GateOperation) :
  valid_operation op → valid_moment [op].
Proof. intros Hop. split; [by apply Forall_singleton | reflexivity]. Qed.

Lemma valid_circuit_append (c : Circuit) (op : GateOperation) :
  valid_circuit c → valid_operation op → valid_circuit (append c op).
Proof.
  intros Hc Hop. unfold valid_circuit in *.
  destruct (append_cases c op) as [->|(p & m & Hm & Hfree & ->)].
  - apply Forall_app. split; [done|].
    by apply Forall_singleton, valid_moment_singleton.
  - apply Forall_insert; [done|].
    destruct (Forall_lookup_1 _ _ _ _ Hc Hm) as [Hops Hnew]. split.
    + apply Forall_app. split; [done | by apply Forall_singleton].
    + by apply Moment_new_snoc.
Qed.

Lemma valid_circuit_items (items : list (GateOperation + Moment)) (c : Circuit) :
  valid_circuit c → Forall valid_item items →
  valid_circuit (foldl insert_item c items).
Proof.
  revert c. induction items as [|item items IH]; intros c Hc Hitems; [done|].
  apply Forall_cons in Hitems as [Hitem Hitems]. cbn [foldl].
  apply IH; [|done]. destruct item as [op|m]; cbn in *.
  - by apply valid_circuit_append.
  - apply Forall_app. split; [done | by apply Forall_singleton].
Qed.

(** X9. The invariant of circuits: if every operation of the tree is one
    [cirq] can build, and every moment of the tree too, then in every moment
    of [Circuit(operation_tree)] no two operations share a qubit, that is,
    [Moment] accepts its operations; appending with the strategy [EARLIEST]
    never puts an operation in a moment that already acts on one of its
    qubits. *)
Theorem Circuit_of_tree_valid (operation_tree : OP_TREE) :
  Forall valid_item (flatten_to_ops_or_moments operation_tree) →
  valid_circuit (Circuit_of_tree operation_tree)
  ∧ ∀ m, m ∈ Circuit_of_tree operation_tree → Moment_new m = Return m.
Proof.
  intros Hitems.
  assert (Hvalid : valid_circuit (Circuit_of_tree operation_tree)).
  { apply valid_circuit_items; [apply Forall_nil_2 | done]. }
  split; [done|]. intros m Hm.
  unfold valid_circuit in Hvalid. rewrite Forall_forall in Hvalid.
  by destruct (Hvalid m Hm).
Qed.

Lemma Circuit_of_tree_valid_witness :
  let tree :=
    tree_list [tree_op (GateOp H [LineQubit 0]);
               tree_list [tree_op (GateOp H [LineQubit 1]);
                          tree_op (GateOp CNOT [LineQubit 0; LineQubit 1])]] in
  Forall valid_item (flatten_to_ops_or_moments tree)
  ∧ valid_circuit (Circuit_of_tree tree)
  ∧ Circuit_of_tree tree
    = [[GateOp H [LineQubit 0]; GateOp H [LineQubit 1]];
       [GateOp CNOT [LineQubit 0; LineQubit 1]]].
Proof.
  intros tree.
  assert (Hitems : Forall valid_item (flatten_to_ops_or_moments tree)).
  { repeat (apply Forall_cons; split; [reflexivity|]). apply Forall_nil_2. }
  split; [exact Hitems|]. split.
  - exact (proj1 (Circuit_of_tree_valid tree Hitems)).
  - reflexivity.
Defined.

(** ** Choi matrices, continued *)

Lemma circuit_to_choi_unsupported_size {sim : DensityMatrixSimulator}
    (circuit : Circuit) :
  size (all_qubits circuit) ≠ 1%nat →
  size (all_qubits circuit) ≠ 2%nat →
  _circuit_to_choi circuit = Raise (NotImplementedError unsupported_message).
Proof.
  intros H1 H2. unfold _circuit_to_choi, choi_full_circ.
  rewrite max_ent_state_circuit_other by lia. reflexivity.
Qed.

Lemma circuit_to_choi_shape {sim : DensityMatrixSimulator} (circuit : Circuit) :
  let n := size (all_qubits circuit) in
  let register : gset Qid := list_to_set (LineQubit_range (2 * Z.of_nat n)) in
  n = 1%nat ∨ n = 2%nat →
  ∃ m,
    _circuit_to_choi circuit = Return m
    ∧ shape m = (2 ^ N.of_nat (size (register ∪ all_qubits circuit)),
                 2 ^ N.of_nat (size (register ∪ all_qubits circuit)))%N.
Proof.
  intros n register Hn.
  destruct (max_ent_state_circuit_register (2 * Z.of_nat n))
    as (prep & Hprep & Hqubits & _); [lia|].
  exists (simulate_final_density_matrix (prep ++ circuit)). split.
  - unfold _circuit_to_choi.
    by rewrite (choi_full_circ_prep circuit prep Hprep).
  - by rewrite simulate_shape, all_qubits_app, Hqubits.
Qed.

(** X10. A circuit that touches no qubit, or three or more, has no Choi
    matrix: [_circuit_to_choi] raises [NotImplementedError]. This covers the
    circuit with no operations. *)
Theorem circuit_to_choi_unsupported {sim : DensityMatrixSimulator}
    (circuit : Circuit) :
  size (all_qubits circuit) ≠ 1%nat →
  size (all_qubits circuit) ≠ 2%nat →
  _circuit_to_choi circuit = Raise (NotImplementedError unsupported_message).
Proof. apply circuit_to_choi_unsupported_size. Qed.

Lemma circuit_to_choi_unsupported_witness :
  let circuit : Circuit := [] in
  size (all_qubits circuit) ≠ 1%nat
  ∧ size (all_qubits circuit) ≠ 2%nat
  ∧ @_circuit_to_choi shape_simulator circuit
    = Raise (NotImplementedError unsupported_message).
Proof.
  intros circuit.
  assert (H1 : size (all_qubits circuit) ≠ 1%nat) by (vm_compute; lia).
  assert (H2 : size (all_qubits circuit) ≠ 2%nat) by (vm_compute; lia).
  split; [exact H1|]. split; [exact H2|].
  exact (@circuit_to_choi_unsupported shape_simulator circuit H1 H2).
Defined.

(** X11. [_operation_to_choi] depends on the operations of its tree through
    their qubits: with [n] distinct qubits in the tree, it raises
    [NotImplementedError] unless [n] is 1 or 2, and then it returns a matrix
    of side [2^d], where [d] counts [LineQubit(0)], ..., [LineQubit(2n - 1)]
    together with the qubits of the tree. *)
Theorem operation_to_choi_dimension {sim : DensityMatrixSimulator}
    (operation_tree : OP_TREE) :
  let ops := items_operations (flatten_to_ops_or_moments operation_tree) in
  let tree_qubits : gset Qid := ⋃ ((λ op, list_to_set (qubits op)) <$> ops) in
  let n := size tree_qubits in
  let register : gset Qid := list_to_set (LineQubit_range (2 * Z.of_nat n)) in
  (n ≠ 1%nat ∧ n ≠ 2%nat →
   _operation_to_choi operation_tree
   = Raise (NotImplementedError unsupported_message))
  ∧ (n = 1%nat ∨ n = 2%nat →
     ∃ m,
       _operation_to_choi operation_tree = Return m
       ∧ shape m = (2 ^ N.of_nat (size (register ∪ tree_qubits)),
                    2 ^ N.of_nat (size (register ∪ tree_qubits)))%N).
Proof.
  intros ops tree_qubits n register.
  assert (Hq : all_qubits (Circuit_of_tree operation_tree) = tree_qubits).
  { rewrite all_qubits_operations. apply set_eq. intros q.
    unfold tree_qubits, ops. rewrite !elem_of_union_list.
    unfold Circuit_of_tree, Circuit_of_items.
    by setoid_rewrite all_operations_items. }
  unfold _operation_to_choi. split.
  - intros [H1 H2]. apply circuit_to_choi_unsupported_size; by rewrite Hq.
  - intros Hn.
    destruct (circuit_to_choi_shape (Circuit_of_tree operation_tree))
      as (m & Hm & Hshape); [by rewrite Hq|].
    exists m. split; [done|]. by rewrite Hq in Hshape.
Qed.

Lemma operation_to_choi_dimension_witness :
  let tree := tree_list [tree_op (GateOp H [LineQubit 0]);
                         tree_op (GateOp H [LineQubit 0])] in
  ∃ m,
    @_operation_to_choi shape_simulator tree = Return m
    ∧ @shape shape_simulator m = (4, 4)%N.
Proof.
  intros tree.
  destruct (proj2 (@operation_to_choi_dimension shape_simulator tree))
    as (m & Hm & Hshape); [left; reflexivity|].
  exists m. split; [exact Hm|].
  rewrite Hshape. vm_compute. reflexivity.
Defined.

(** ** Circuit equality, continued *)

Lemma NoDup_sorted (s : gset Qid) : NoDup (sorted s).
Proof. unfold sorted. rewrite merge_sort_Permutation. apply NoDup_elements. Qed.

Lemma elem_of_sorted (s : gset Qid) (q : Qid) : q ∈ sorted s ↔ q ∈ s.
Proof. unfold sorted. rewrite merge_sort_Permutation. apply elem_of_elements. Qed.

Lemma NoDup_fst_zip {A B} (l1 : list A) (l2 : list B) :
  NoDup l1 → NoDup (zip l1 l2).*1.
Proof.
  intros Hnd. revert l2. induction Hnd as [|x l1 Hx Hnd IH]; intros l2.
  - apply NoDup_nil_2.
  - destruct l2 as [|y l2]; [apply NoDup_nil_2|]. cbn.
    apply NoDup_cons. split; [|apply IH].
    intros Hin. apply list_elem_of_fmap in Hin as ([x' y'] & -> & Hin).
    by apply elem_of_zip_l in Hin.
Qed.

Lemma dict_zip_lookup (l1 l2 : list Qid) (i : nat) (q q' : Qid) :
  NoDup l1 → l1 !! i = Some q → l2 !! i = Some q' →
  dict (zip l1 l2) !! q = Some q'.
Proof.
  intros Hnd Hq Hq'. unfold dict. apply elem_of_list_to_map_1.
  - rewrite fmap_reverse, reverse_Permutation. by apply NoDup_fst_zip.
  - rewrite elem_of_reverse. apply list_elem_of_lookup. exists i.
    by apply lookup_zip_Some.
Qed.

Lemma dict_zip_lookup_inv (l1 l2 : list Qid) (q q' : Qid) :
  dict (zip l1 l2) !! q = Some q' →
  ∃ i, l1 !! i = Some q ∧ l2 !! i = Some q'.
Proof.
  unfold dict. intros Hq. apply elem_of_list_to_map_2 in Hq.
  rewrite elem_of_reverse in Hq.
  apply list_elem_of_lookup in Hq as (i & Hi). exists i.
  by apply lookup_zip_Some.
Qed.

(** The map of [_equal] sends the i-th smallest qubit of the first circuit
    to the i-th smallest qubit of the second. *)
Lemma qubit_image_lookup (c1 c2 : Circuit) (i : nat) (q q' : Qid) :
  sorted (all_qubits c1) !! i = Some q →
  sorted (all_qubits c2) !! i = Some q' →
  dict (zip (sorted (all_qubits c1)) (sorted (all_qubits c2))) !! q = Some q'
  ∧ qubit_image c1 c2 q = q'.
Proof.
  intros Hq Hq'.
  assert (dict (zip (sorted (all_qubits c1)) (sorted (all_qubits c2))) !! q
          = Some q') as Hlook
    by (eapply dict_zip_lookup; [apply NoDup_sorted|done..]).
  split; [done|]. unfold qubit_image. by rewrite Hlook.
Qed.

Lemma qubit_image_defined (c1 c2 : Circuit) (q : Qid) :
  (size (all_qubits c1) ≤ size (all_qubits c2))%nat →
  q ∈ all_qubits c1 →
  ∃ i, sorted (all_qubits c1) !! i = Some q
     ∧ sorted (all_qubits c2) !! i = Some (qubit_image c1 c2 q).
Proof.
  intros Hsize Hq. apply elem_of_sorted, list_elem_of_lookup in Hq as (i & Hi).
  assert (i < length (sorted (all_qubits c2)))%nat as Hlt.
  { apply lookup_lt_Some in Hi. rewrite !length_sorted in *. lia. }
  apply lookup_lt_is_Some in Hlt as (q' & Hq').
  exists i. split; [done|].
  by destruct (qubit_image_lookup c1 c2 i q q' Hi Hq') as [_ ->].
Qed.

Lemma qubit_image_inj (c1 c2 : Circuit) (q1 q2 : Qid) :
  (size (all_qubits c1) ≤ size (all_qubits c2))%nat →
  q1 ∈ all_qubits c1 → q2 ∈ all_qubits c1 →
  qubit_image c1 c2 q1 = qubit_image c1 c2 q2 → q1 = q2.
Proof.
  intros Hsize Hq1 Hq2 Heq.
  destruct (qubit_image_defined c1 c2 q1 Hsize Hq1) as (i & Hi & Hi').
  destruct (qubit_image_defined c1 c2 q2 Hsize Hq2) as (j & Hj & Hj').
  rewrite Heq in Hi'.
  assert (i = j) as -> by (eapply NoDup_lookup; [apply NoDup_sorted|done..]).
  congruence.
Qed.

Lemma mapM_Return {A B} (func : A → result B) (f : A → B) (l : list A) :
  (∀ x, x ∈ l → func x = Return (f x)) → mapM func l = Return (f <$> l).
Proof.
  induction l as [|x l IH]; intros Hall; [done|]. cbn.
  rewrite Hall by (by left). cbn. rewrite IH; [done|].
  intros y Hy. apply Hall. by right.
Qed.

Lemma on_Return_inv (g : Gate) (qs : list Qid) (op : GateOperation) :
  on g qs = Return op →
  op = GateOp g qs ∧ length qs = gate_num_qubits g ∧ NoDup qs.
Proof.
  unfold on, has_duplicates. intros Hon.
  destruct (bool_decide (length qs = gate_num_qubits g)) eqn:Hlen; [|done].
  apply bool_decide_eq_true in Hlen. cbn in Hon.
  destruct (bool_decide (¬ NoDup qs)) eqn:Hdup; [done|].
  apply bool_decide_eq_false in Hdup. injection Hon as <-.
  repeat split; [done|]. by destruct (decide (NoDup qs)).
Qed.

Section relabelling.
Context (func : Qid → result Qid) (f : Qid → Qid) (domain : gset Qid).
Context (Hfunc : ∀ q, q ∈ domain → func q = Return (f q)).
Context (Hinj : ∀ q1 q2, q1 ∈ domain → q2 ∈ domain → f q1 = f q2 → q1 = q2).

Lemma transform_operation_relabel (op : GateOperation) :
  valid_operation op →
  (∀ q, q ∈ qubits op → q ∈ domain) →
  transform_operation func op = Return (GateOp (gate op) (f <$> qubits op)).
Proof.
  intros Hop Hdom. unfold transform_operation.
  rewrite (mapM_Return func f) by (intros q Hq; by apply Hfunc, Hdom).
  cbn. apply on_Return_inv in Hop as (_ & Hlen & Hnd).
  apply on_valid; [by rewrite length_fmap|].
  apply NoDup_fmap_2_strong; [|done].
  intros q1 q2 Hq1 Hq2. apply Hinj; by apply Hdom.
Qed.

Lemma operates_on_relabel (m : Moment) (qs : list Qid) :
  (∀ op q, op ∈ m → q ∈ qubits op → q ∈ domain) →
  (∀ q, q ∈ qs → q ∈ domain) →
  operates_on m qs = false →
  operates_on (map (λ op, GateOp (gate op) (f <$> qubits op)) m) (f <$> qs)
  = false.
Proof.
  intros Hm Hqs Hfree. rewrite operates_on_false in *.
  intros op' q' Hop' Hq' Hin.
  apply list_elem_of_fmap in Hop' as (op & -> & Hop). cbn in Hin.
  apply list_elem_of_fmap in Hq' as (q & -> & Hq).
  apply list_elem_of_fmap in Hin as (q2 & Heq & Hq2).
  apply Hinj in Heq as ->; [|by apply Hqs|by eapply Hm].
  by eapply Hfree.
Qed.

Lemma Moment_new_relabel (m : Moment) :
  (∀ op q, op ∈ m → q ∈ qubits op → q ∈ domain) →
  Moment_new m = Return m →
  Moment_new (map (λ op, GateOp (gate op) (f <$> qubits op)) m)
  = Return (map (λ op, GateOp (gate op) (f <$> qubits op)) m).
Proof.
  induction m as [|op m IH]; intros Hdom Hm; [done|].
  apply Moment_new_cons in Hm as [Hm Hfree]. cbn [map].
  apply Moment_new_cons. split.
  - apply IH; [|done]. intros op' q Hop'. apply Hdom. by right.
  - apply (operates_on_relabel m (qubits op)); [| |done].
    + intros op' q Hop'. apply Hdom. by right.
    + intros q. apply Hdom. by left.
Qed.

Lemma transform_moment_relabel (m : Moment) :
  valid_moment m →
  (∀ op q, op ∈ m → q ∈ qubits op → q ∈ domain) →
  transform_moment func m
  = Return (map (λ op, GateOp (gate op) (f <$> qubits op)) m).
Proof.
  intros [Hops Hnew] Hdom. unfold transform_moment.
  rewrite (mapM_Return (transform_operation func)
             (λ op, GateOp (gate op) (f <$> qubits op))).
  - cbn. by apply Moment_new_relabel.
  - intros op Hop. apply transform_operation_relabel.
    + rewrite Forall_forall in Hops. by apply Hops.
    + intros q. by apply Hdom.
Qed.

Lemma transform_qubits_relabel (c : Circuit) :
  valid_circuit c →
  all_qubits c ⊆ domain →
  transform_qubits func c = Return (relabel f c).
Proof.
  intros Hc Hdom. unfold transform_qubits, relabel.
  apply (mapM_Return (transform_moment func)
           (map (λ op, GateOp (gate op) (f <$> qubits op)))).
  intros m Hm. apply transform_moment_relabel.
  - unfold valid_circuit in Hc. rewrite Forall_forall in Hc. by apply Hc.
  - intros op q Hop Hq. apply Hdom, elem_of_all_qubits. eauto.
Qed.
End relabelling.

Lemma relabel_id_on (f : Qid → Qid) (c : Circuit) :
  (∀ q, q ∈ all_qubits c → f q = q) → relabel f c = c.
Proof.
  intros Hid. unfold relabel.
  rewrite <- (map_id c) at 2. apply map_ext_in. intros m Hm.
  rewrite <- (map_id m) at 2. apply map_ext_in. intros [g qs] Hop. cbn.
  f_equal. rewrite <- (list_fmap_id qs) at 2. apply list_fmap_ext.
  intros i q Hq. apply Hid, elem_of_all_qubits.
  exists m, (GateOp g qs). rewrite !list_elem_of_In.
  split; [done|]. split; [done|]. apply list_elem_of_In.
  by eapply list_elem_of_lookup_2.
Qed.

Lemma qubit_image_same (c1 c2 : Circuit) (q : Qid) :
  all_qubits c1 = all_qubits c2 → q ∈ all_qubits c1 → qubit_image c1 c2 q = q.
Proof.
  intros Heq Hq.
  apply elem_of_sorted, list_elem_of_lookup in Hq as (i & Hi).
  apply (qubit_image_lookup c1 c2 i q q); [done | by rewrite <- Heq].
Qed.

Section equal_relabelling.
Context {lib : CircuitLibrary}.

Lemma equal_transform (circuit_one circuit_two : object Circuit)
    (relabelled : Circuit) (rm : bool) :
  transform_qubits
    (λ q, match dict (zip (sorted (all_qubits (value circuit_one)))
                          (sorted (all_qubits (value circuit_two)))) !! q with
          | Some q' => Return q'
          | None => Raise (KeyError q)
          end)
    (value circuit_one) = Return relabelled →
  _equal circuit_one circuit_two false rm
  = _equal (Object (id circuit_one) relabelled) circuit_two true rm.
Proof.
  intros Ht. unfold _equal, is_. cbn [id value negb].
  destruct (bool_decide (id circuit_one = id circuit_two)); [done|].
  unfold deepcopy. by rewrite Ht.
Qed.

Lemma equal_relabel_transform (circuit_one circuit_two : Circuit) :
  valid_circuit circuit_one →
  (size (all_qubits circuit_one) ≤ size (all_qubits circuit_two))%nat →
  transform_qubits
    (λ q, match dict (zip (sorted (all_qubits circuit_one))
                          (sorted (all_qubits circuit_two))) !! q with
          | Some q' => Return q'
          | None => Raise (KeyError q)
          end)
    circuit_one
  = Return (relabel (qubit_image circuit_one circuit_two) circuit_one).
Proof.
  intros Hvalid Hsize.
  apply (transform_qubits_relabel _ _ (all_qubits circuit_one)); [| |done|done].
  - intros q Hq.
    destruct (qubit_image_defined circuit_one circuit_two q Hsize Hq)
      as (i & Hi & Hi').
    by destruct (qubit_image_lookup _ _ _ _ _ Hi Hi') as [-> _].
  - intros q1 q2. by apply qubit_image_inj.
Qed.

(** X12. When the first circuit is one [cirq] can build and has no more
    distinct qubits than the second, the relabelling of [_equal] raises
    nothing: with [require_qubit_equality=False] the call does what the call
    with [require_qubit_equality=True] does on the first circuit with its
    i-th smallest qubit replaced by the i-th smallest qubit of the second
    circuit. *)
Theorem equal_relabels_in_order (circuit_one circuit_two : object Circuit)
    (require_measurement_equality : bool) :
  let image := qubit_image (value circuit_one) (value circuit_two) in
  valid_circuit (value circuit_one) →
  (size (all_qubits (value circuit_one))
   ≤ size (all_qubits (value circuit_two)))%nat →
  _equal circuit_one circuit_two false require_measurement_equality
  = _equal (Object (id circuit_one) (relabel image (value circuit_one)))
      circuit_two true require_measurement_equality
  ∧ ∀ i q q',
      sorted (all_qubits (value circuit_one)) !! i = Some q →
      sorted (all_qubits (value circuit_two)) !! i = Some q' →
      image q = q'.
Proof.
  intros image Hvalid Hsize. split.
  - apply equal_transform. by apply equal_relabel_transform.
  - intros i q q' Hq Hq'. by apply (qubit_image_lookup _ _ i).
Qed.

(** X13. When the two circuits act on the same qubits and the first is one
    [cirq] can build, the relabelling is the identity: the flag
    [require_qubit_equality] does not change the result of [_equal]. *)
Theorem equal_same_qubits (circuit_one circuit_two : object Circuit)
    (require_measurement_equality : bool) :
  valid_circuit (value circuit_one) →
  all_qubits (value circuit_one) = all_qubits (value circuit_two) →
  _equal circuit_one circuit_two false require_measurement_equality
  = _equal circuit_one circuit_two true require_measurement_equality.
Proof.
  intros Hvalid Hsame.
  rewrite (equal_transform circuit_one circuit_two (value circuit_one)).
  - by destruct circuit_one.
  - rewrite equal_relabel_transform; [|done|by rewrite Hsame].
    f_equal. apply relabel_id_on. intros q. by apply qubit_image_same.
Qed.
End equal_relabelling.

Lemma valid_bell_circuit : valid_circuit bell_circuit.
Proof.
  repeat (apply Forall_cons; split;
          [split; [repeat (apply Forall_cons; split; [reflexivity|]);
                   apply Forall_nil_2 | reflexivity]|]).
  apply Forall_nil_2.
Qed.

Lemma equal_relabels_in_order_witness :
  let circuit_one := Object 1%positive bell_circuit in
  let circuit_two :=
    Object 2%positive
      [[GateOp H [LineQubit 5]]; [GateOp CNOT [LineQubit 5; LineQubit 6]]] in
  valid_circuit (value circuit_one)
  ∧ @_equal null_library circuit_one circuit_two false true
    = @_equal null_library
        (Object 1%positive
           (relabel (qubit_image (value circuit_one) (value circuit_two))
              bell_circuit))
        circuit_two true true.
Proof.
  intros circuit_one circuit_two.
  assert (Hsize : (size (all_qubits (value circuit_one))
                   ≤ size (all_qubits (value circuit_two)))%nat)
    by (vm_compute; lia).
  split; [exact valid_bell_circuit|].
  exact (proj1 (@equal_relabels_in_order null_library circuit_one circuit_two
                  true valid_bell_circuit Hsize)).
Defined.

Lemma equal_same_qubits_witness :
  let circuit_one := Object 1%positive bell_circuit in
  let circuit_two :=
    Object 2%positive
      [[GateOp H [LineQubit 1]]; [GateOp CNOT [LineQubit 1; LineQubit 0]]] in
  all_qubits (value circuit_one) = all_qubits (value circuit_two)
  ∧ @_equal null_library circuit_one circuit_two false false
    = @_equal null_library circuit_one circuit_two true false.
Proof.
  intros circuit_one circuit_two.
  assert (Hsame : all_qubits (value circuit_one)
                  = all_qubits (value circuit_two))
    by (vm_compute; reflexivity).
  split; [exact Hsame|].
  exact (@equal_same_qubits null_library circuit_one circuit_two false
           valid_bell_circuit Hsame).
Defined.

Lemma mapM_Return_or_KeyError {A B} (g : A → result B) (P : Qid → Prop)
    (l : list A) :
  (∀ x, x ∈ l →
     (∃ y, g x = Return y) ∨ ∃ q, P q ∧ g x = Raise (KeyError q)) →
  (∃ ys, mapM g l = Return ys) ∨ ∃ q, P q ∧ mapM g l = Raise (KeyError q).
Proof.
  induction l as [|x l IH]; intros Hall; [left; by eexists|]. cbn.
  destruct (Hall x) as [(y & ->)|(q & Hq & ->)]; [by left| |right; eauto].
  cbn. destruct IH as [(ys & ->)|(q & Hq & ->)].
  - intros x' Hx'. apply Hall. by right.
  - left. by eexists.
  - right. eauto.
Qed.

Section partial_relabelling.
Context (func : Qid → result Qid) (f : Qid → Qid) (domain : gset Qid).
Context (Hfunc : ∀ q, q ∈ domain → func q = Return (f q)).
Context (Hout : ∀ q, q ∉ domain → func q = Raise (KeyError q)).
Context (Hinj : ∀ q1 q2, q1 ∈ domain → q2 ∈ domain → f q1 = f q2 → q1 = q2).

Lemma transform_operation_cases (op : GateOperation) :
  valid_operation op →
  (∃ op', transform_operation func op = Return op')
  ∨ ∃ q, (q ∈ qubits op ∧ q ∉ domain)
       ∧ transform_operation func op = Raise (KeyError q).
Proof.
  intros Hop.
  destruct (decide (Forall (λ q, q ∈ domain) (qubits op))) as [Hall|Hnot].
  - left. eexists.
    apply (transform_operation_relabel func f domain Hfunc Hinj); [done|].
    by apply Forall_forall.
  - right. unfold transform_operation.
    destruct (mapM_Return_or_KeyError func
                (λ q, q ∈ qubits op ∧ q ∉ domain) (qubits op))
      as [(qs & Hqs)|(q & Hq & ->)]; [| |by eauto].
    + intros q Hq. destruct (decide (q ∈ domain)) as [Hin|Hnin].
      * left. eexists. by apply Hfunc.
      * right. exists q. split; [done | by apply Hout].
    + exfalso. apply Hnot, Forall_forall. intros q Hq.
      destruct (mapM_Return_inv _ _ _ Hqs q Hq) as (q' & Hq').
      destruct (decide (q ∈ domain)) as [|Hnin]; [done|].
      by rewrite Hout in Hq'.
Qed.

Lemma transform_moment_cases (m : Moment) :
  valid_moment m →
  (∃ m', transform_moment func m = Return m')
  ∨ ∃ q, (q ∈ moment_qubits m ∧ q ∉ domain)
       ∧ transform_moment func m = Raise (KeyError q).
Proof.
  intros Hm.
  destruct (decide (moment_qubits m ⊆ domain)) as [Hall|Hnot].
  - left. eexists.
    apply (transform_moment_relabel func f domain Hfunc Hinj); [done|].
    intros op q Hop Hq. apply Hall. unfold moment_qubits.
    apply elem_of_union_list. eexists. split.
    + apply list_elem_of_fmap. eauto.
    + by apply elem_of_list_to_set.
  - right. unfold transform_moment.
    destruct (mapM_Return_or_KeyError (transform_operation func)
                (λ q, q ∈ moment_qubits m ∧ q ∉ domain) m)
      as [(ops & Hops)|(q & Hq & ->)]; [| |by eauto].
    + intros op Hop. destruct Hm as [Hvalid _].
      rewrite Forall_forall in Hvalid.
      destruct (transform_operation_cases op (Hvalid op Hop))
        as [?|(q & [Hq Hnin] & ?)]; [by left|].
      right. exists q. split; [|done]. split; [|done].
      unfold moment_qubits. apply elem_of_union_list. eexists. split.
      * apply list_elem_of_fmap. eauto.
      * by apply elem_of_list_to_set.
    + exfalso. apply Hnot. intros q Hq. unfold moment_qubits in Hq.
      apply elem_of_union_list in Hq as (X & HX & Hq).
      apply list_elem_of_fmap in HX as (op & -> & Hop).
      apply elem_of_list_to_set in Hq.
      destruct (mapM_Return_inv _ _ _ Hops op Hop) as (op' & Hop').
      unfold transform_operation in Hop'.
      apply bind_Return_inv in Hop' as (qs & Hqs & _).
      destruct (mapM_Return_inv _ _ _ Hqs q Hq) as (q' & Hq').
      destruct (decide (q ∈ domain)) as [|Hnin]; [done|].
      by rewrite Hout in Hq'.
Qed.

Lemma transform_qubits_cases (c : Circuit) :
  valid_circuit c →
  (∃ c', transform_qubits func c = Return c')
  ∨ ∃ q, (q ∈ all_qubits c ∧ q ∉ domain)
       ∧ transform_qubits func c = Raise (KeyError q).
Proof.
  intros Hc. unfold transform_qubits.
  apply mapM_Return_or_KeyError. intros m Hm.
  unfold valid_circuit in Hc. rewrite Forall_forall in Hc.
  destruct (transform_moment_cases m (Hc m Hm))
    as [?|(q & [Hq Hnin] & ?)]; [by left|].
  right. exists q. split; [|done]. split; [|done].
  unfold all_qubits. apply elem_of_union_list. eexists. split; [|done].
  apply list_elem_of_fmap. eauto.
Qed.
End partial_relabelling.

Lemma dict_zip_inj (l1 l2 : list Qid) (q1 q2 q' : Qid) :
  NoDup l2 →
  dict (zip l1 l2) !! q1 = Some q' → dict (zip l1 l2) !! q2 = Some q' →
  q1 = q2.
Proof.
  intros Hnd (i & Hi & Hi')%dict_zip_lookup_inv (j & Hj & Hj')%dict_zip_lookup_inv.
  assert (i = j) as -> by (by eapply NoDup_lookup).
  congruence.
Qed.

Section equal_key_error.
Context {lib : CircuitLibrary}.

(** X14. When the first circuit is one [cirq] can build and has more
    distinct qubits than the second, which is another object, [_equal] with
    [require_qubit_equality=False] raises [KeyError], and the key is a qubit
    of the first circuit beyond its [k] smallest, [k] being the number of
    qubits of the second circuit. *)
Theorem equal_more_qubits_key (circuit_one circuit_two : object Circuit)
    (require_measurement_equality : bool) :
  id circuit_one ≠ id circuit_two →
  valid_circuit (value circuit_one) →
  (size (all_qubits (value circuit_two))
   < size (all_qubits (value circuit_one)))%nat →
  ∃ q i,
    _equal circuit_one circuit_two false require_measurement_equality
    = Raise (KeyError q)
    ∧ sorted (all_qubits (value circuit_one)) !! i = Some q
    ∧ (size (all_qubits (value circuit_two)) ≤ i)%nat.
Proof.
  intros Hid Hvalid Hsize.
  set (l1 := sorted (all_qubits (value circuit_one))).
  set (l2 := sorted (all_qubits (value circuit_two))).
  set (func := λ q, match dict (zip l1 l2) !! q with
                    | Some q' => Return q'
                    | None => Raise (KeyError q)
                    end).
  destruct (transform_qubits_cases func
              (λ q, default q (dict (zip l1 l2) !! q))
              (dom (dict (zip l1 l2)))) with (c := value circuit_one)
    as [(c' & Hc')|(q & [Hq Hnin] & Hraise)].
  - intros q [q' Hq']%elem_of_dom. unfold func. by rewrite Hq'.
  - intros q Hq%not_elem_of_dom. unfold func. by rewrite Hq.
  - intros q1 q2 [q1' Hq1]%elem_of_dom [q2' Hq2]%elem_of_dom.
    rewrite Hq1, Hq2. cbn. intros ->.
    eapply dict_zip_inj; [apply NoDup_sorted|done..].
  - done.
  - exfalso.
    pose proof (transform_qubits_Return_inv _ _ _ Hc') as Hall.
    assert (size (all_qubits (value circuit_one)) ≤ length ((zip l1 l2).*1))%nat
      as Hle.
    { apply size_le_length. intros q Hq. destruct (Hall q Hq) as (q' & Hq').
      unfold func in Hq'.
      destruct (dict (zip l1 l2) !! q) as [q''|] eqn:Hlook; [|done].
      by eapply dict_lookup_Some. }
    unfold l1, l2 in Hle.
    rewrite length_fmap, length_zip, !length_sorted in Hle. lia.
  - apply elem_of_sorted, list_elem_of_lookup in Hq as (i & Hi).
    exists q, i. split; [|split; [done|]].
    + unfold _equal, is_. rewrite bool_decide_false by done.
      cbn [negb]. unfold deepcopy. fold l1 l2. fold func. by rewrite Hraise.
    + apply not_elem_of_dom in Hnin.
      destruct (decide (size (all_qubits (value circuit_two)) ≤ i)%nat)
        as [|Hlt]; [done|]. exfalso.
      assert (i < length l2)%nat as Hi2
        by (unfold l2; rewrite length_sorted; lia).
      apply lookup_lt_is_Some in Hi2 as (q' & Hq').
      by rewrite (dict_zip_lookup l1 l2 i q q' (NoDup_sorted _) Hi Hq') in Hnin.
Qed.
End equal_key_error.

Lemma equal_more_qubits_key_witness :
  let circuit_one := Object 1%positive bell_circuit in
  let circuit_two := Object 2%positive [[GateOp H [LineQubit 9]]] in
  id circuit_one ≠ id circuit_two
  ∧ ∃ q i,
      @_equal null_library circuit_one circuit_two false true
      = Raise (KeyError q)
      ∧ sorted (all_qubits (value circuit_one)) !! i = Some q
      ∧ (size (all_qubits (value circuit_two)) ≤ i)%nat.
Proof.
  intros circuit_one circuit_two.
  assert (Hid : id circuit_one ≠ id circuit_two) by (simpl; lia).
  assert (Hsize : (size (all_qubits (value circuit_two))
                   < size (all_qubits (value circuit_one)))%nat)
    by (vm_compute; lia).
  split; [exact Hid|].
  exact (@equal_more_qubits_key null_library circuit_one circuit_two true
           Hid valid_bell_circuit Hsize).
Defined.

(** ** Simplifying exponents *)

Section simplify.
Context {eqv : GateEquality}.

Lemma simplify_gate_exponent_num_qubits (g : Gate) :
  gate_num_qubits (_simplify_gate_exponent g) = gate_num_qubits g.
Proof.
  unfold _simplify_gate_exponent.
  destruct (has_with_exponent g && Gate_eq g (with_exponent g (np.Fin 1)));
    [|done].
  by destruct g.
Qed.

(** X15. [_simplify_gate_exponent] is idempotent as soon as a gate at
    exponent 1 is equal to itself: simplifying a second time changes
    nothing. The result is the input or the gate of the same class at
    exponent 1. *)
Theorem simplify_gate_exponent_idempotent (g : Gate) :
  (∀ cls, Gate_eq (EigenGate cls (np.Fin 1)) (EigenGate cls (np.Fin 1)) = true) →
  _simplify_gate_exponent (_simplify_gate_exponent g)
  = _simplify_gate_exponent g
  ∧ (_simplify_gate_exponent g = g
     ∨ _simplify_gate_exponent g = with_exponent g (np.Fin 1)).
Proof.
  intros Hrefl. split.
  - destruct g as [cls e|n key mask]; [|reflexivity].
    unfold _simplify_gate_exponent.
    cbn [has_with_exponent with_exponent andb].
    destruct (Gate_eq (EigenGate cls e) (EigenGate cls (np.Fin 1))) eqn:Heq;
      cbn [has_with_exponent with_exponent andb].
    + by rewrite Hrefl.
    + by rewrite Heq.
  - unfold _simplify_gate_exponent.
    destruct (has_with_exponent g && Gate_eq g (with_exponent g (np.Fin 1)));
      [by right | by left].
Qed.

Lemma simplify_operations_gates (ops : list GateOperation)
    (rest : list Operation) (acc : list GateOperation) :
  Forall valid_operation ops →
  simplify_operations ((map gate_operation ops) ++ rest) acc
  = simplify_operations rest (acc ++ map simplified_operation ops).
Proof.
  revert acc. induction ops as [|op ops IH]; intros acc Hvalid.
  - cbn. by rewrite app_nil_r.
  - apply Forall_cons in Hvalid as [Hop Hvalid].
    cbn [map app simplify_operations].
    apply on_Return_inv in Hop as (_ & Hlen & Hnd).
    rewrite on_valid; [|by destruct (is_EigenGate (gate op));
                         rewrite ?simplify_gate_exponent_num_qubits|done].
    cbn [mbind result_bind]. rewrite IH by done.
    cbn [map]. by rewrite <- app_assoc.
Qed.

Lemma operates_on_map (h : GateOperation → GateOperation) (m : Moment)
    (qs : list Qid) :
  (∀ op, qubits (h op) = qubits op) →
  operates_on (map h m) qs = operates_on m qs.
Proof.
  intros Hq. unfold operates_on. induction m as [|op m IH]; [done|].
  cbn. by rewrite IH, Hq.
Qed.

Lemma Moment_new_map (h : GateOperation → GateOperation) (m : Moment) :
  (∀ op, qubits (h op) = qubits op) →
  Moment_new m = Return m → Moment_new (map h m) = Return (map h m).
Proof.
  intros Hq. induction m as [|op m IH]; intros Hm; [done|].
  apply Moment_new_cons in Hm as [Hm Hfree]. cbn [map].
  apply Moment_new_cons. split; [by apply IH|].
  by rewrite Hq, operates_on_map.
Qed.

(** The loop over a stretch of moments that [cirq] can build from gate
    operations: each is replaced in place, and the loop goes on. *)
Lemma simplify_moments_gates (visited : list (list Operation))
    (ms : list Moment) (todo : list (list Operation)) :
  Forall valid_moment ms →
  simplify_moments (length visited) (as_operations ms ++ todo)
    (visited ++ as_operations ms ++ todo)
  = simplify_moments (length visited + length ms) todo
      (visited ++ as_operations (map (map simplified_operation) ms) ++ todo).
Proof.
  unfold as_operations.
  revert visited. induction ms as [|m ms IH]; intros visited Hvalid.
  - cbn. by rewrite Nat.add_0_r.
  - apply Forall_cons in Hvalid as [[Hops Hnew] Hvalid].
    cbn [map app simplify_moments].
    rewrite <- (app_nil_r (map gate_operation m)) at 1.
    rewrite (simplify_operations_gates m [] []) by done.
    cbn [simplify_operations app mbind result_bind].
    rewrite Moment_new_map by done.
    rewrite insert_app_r_alt by lia. rewrite Nat.sub_diag.
    cbn [insert list_insert].
    specialize (IH (visited ++ [map gate_operation (map simplified_operation m)])
                  Hvalid).
    rewrite length_app in IH. cbn [length] in IH.
    rewrite <- !app_assoc in IH. cbn [app] in IH.
    replace (S (length visited)) with (length visited + 1)%nat by lia.
    rewrite IH. cbn [length]. f_equal. lia.
Qed.

(** X16. On a circuit of gate operations that [cirq] can build,
    [_simplify_circuit_exponents] raises nothing and leaves the circuit with
    the same moments, the same operations in the same places on the same
    qubits; only gates change: a gate that is not an eigen gate, such as a
    measurement, stays as it is, and every other gate is replaced by its
    [_simplify_gate_exponent]. When such a circuit is followed by a moment
    in which, after gate operations [cirq] can build, comes an operation
    that is not a gate operation, the call raises [AssertionError] there: the
    moments before are left simplified, that moment and the ones after it
    are left as they were. *)
Theorem simplify_circuit_exponents_valid (circuit : Circuit) :
  valid_circuit circuit →
  let after := map (map simplified_operation) circuit in
  _simplify_circuit_exponents (as_operations circuit)
  = (as_operations after, Return ())
  ∧ map (map qubits) after = map (map qubits) circuit
  ∧ all_qubits after = all_qubits circuit
  ∧ (∀ op, is_measurement op = true → simplified_operation op = op)
  ∧ ∀ (ops : list GateOperation) (qs : list Qid)
      (tail : list Operation) (rest : list (list Operation)),
      Forall valid_operation ops →
      let moment := (map gate_operation ops) ++ other_operation qs :: tail in
      _simplify_circuit_exponents (as_operations circuit ++ moment :: rest)
      = (as_operations after ++ moment :: rest, Raise AssertionError).
Proof.
  intros Hvalid after. split; [|split; [|split; [|split]]].
  - unfold _simplify_circuit_exponents.
    pose proof (simplify_moments_gates [] circuit [] Hvalid) as Hrun.
    cbn [length app Nat.add] in Hrun. rewrite !app_nil_r in Hrun.
    by rewrite Hrun.
  - unfold after. rewrite map_map. apply map_ext. intros m.
    rewrite map_map. by apply map_ext.
  - unfold after, all_qubits, moment_qubits.
    rewrite <- list_fmap_compose. f_equal. apply list_fmap_ext.
    intros i m _. cbn. f_equal. rewrite <- list_fmap_compose.
    by apply list_fmap_ext.
  - intros [g qs] Hmeas. unfold is_measurement in Hmeas. cbn in Hmeas.
    destruct g; [done|]. reflexivity.
  - intros ops qs tail rest Hops moment.
    unfold _simplify_circuit_exponents.
    pose proof (simplify_moments_gates [] circuit (moment :: rest) Hvalid)
      as Hrun.
    cbn [length app Nat.add] in Hrun. rewrite Hrun.
    cbn [simplify_moments]. unfold moment at 1.
    rewrite (simplify_operations_gates ops _ []) by done.
    reflexivity.
Qed.
End simplify.

Lemma simplify_gate_exponent_idempotent_witness :
  (∀ cls, @Gate_eq written_equality (EigenGate cls (np.Fin 1))
            (EigenGate cls (np.Fin 1)) = true)
  ∧ @_simplify_gate_exponent written_equality
      (@_simplify_gate_exponent written_equality H)
    = @_simplify_gate_exponent written_equality H.
Proof.
  assert (Hrefl : ∀ cls, @Gate_eq written_equality (EigenGate cls (np.Fin 1))
                           (EigenGate cls (np.Fin 1)) = true)
    by (intros cls; by apply bool_decide_eq_true).
  split; [exact Hrefl|].
  exact (proj1 (@simplify_gate_exponent_idempotent written_equality H Hrefl)).
Defined.

Lemma simplify_circuit_exponents_valid_witness :
  valid_circuit bell_circuit
  ∧ @_simplify_circuit_exponents written_equality (as_operations bell_circuit)
    = (as_operations
         (map (map (@simplified_operation written_equality)) bell_circuit),
       Return ())
  ∧ @_simplify_circuit_exponents written_equality
      (as_operations bell_circuit
       ++ [[gate_operation (GateOp H [LineQubit 2]);
            other_operation [LineQubit 0; LineQubit 1]];
           [gate_operation (GateOp H [LineQubit 0])]])
    = (as_operations
         (map (map (@simplified_operation written_equality)) bell_circuit)
       ++ [[gate_operation (GateOp H [LineQubit 2]);
            other_operation [LineQubit 0; LineQubit 1]];
           [gate_operation (GateOp H [LineQubit 0])]],
       Raise AssertionError).
Proof.
  pose proof (@simplify_circuit_exponents_valid written_equality
                bell_circuit valid_bell_circuit) as (Hrun & _ & _ & _ & Hfail).
  split; [exact valid_bell_circuit|]. split; [exact Hrun|].
  apply (Hfail [GateOp H [LineQubit 2]] [LineQubit 0; LineQubit 1] []
           [[gate_operation (GateOp H [LineQubit 0])]]).
  apply Forall_singleton. reflexivity.
Defined.

(** ** Closeness of dictionaries *)

Lemma isclose_refl (v : np.float64) : isclose v v = true ↔ v ≠ np.NaN.
Proof.
  destruct v as [x| | |]; cbn [isclose]; [|done..|by split].
  split; [done|]. intros _. apply bool_decide_eq_true.
  replace (x - x)%R with 0%R by lra. rewrite Rabs_R0.
  pose proof (Rabs_pos x) as Habs.
  assert (0 < 1e-8)%R by lra. assert (0 < 1e-5)%R by lra. nra.
Qed.

Section are_close_dict_props.
Context `{Countable K}.

Lemma are_close_items_spec (items : list (K * np.float64))
    (dict_b : gmap K np.float64) :
  (∀ k v, (k, v) ∈ items → is_Some (dict_b !! k)) →
  ∃ verdict,
    are_close_items items dict_b = Some verdict
    ∧ (verdict = true
       ↔ ∀ k va vb, (k, va) ∈ items → dict_b !! k = Some vb →
           isclose vb va = true).
Proof.
  induction items as [|[ka va] items IH]; intros Hkeys.
  - exists true. split; [done|]. split; [|done].
    intros _ k va vb Hin. by apply elem_of_nil in Hin.
  - destruct (Hkeys ka va) as [vb Hvb]; [by left|].
    destruct IH as (verdict & Hrest & Hspec).
    { intros k v Hin. eapply Hkeys. by right. }
    cbn. rewrite Hvb. destruct (isclose vb va) eqn:Hclose; cbn.
    + exists verdict. split; [done|]. rewrite Hspec. split.
      * intros Hall k va' vb' Hin Hb.
        apply elem_of_cons in Hin as [[= -> ->]|Hin]; [|by eapply Hall].
        by rewrite Hvb in Hb; injection Hb as <-.
      * intros Hall k va' vb' Hin. apply Hall. by right.
    + exists false. split; [done|]. split; [done|]. intros Hall.
      rewrite (Hall ka va vb) in Hclose; [done|by left|done].
Qed.

Lemma are_close_dict_verdict (dict_a dict_b : gmap K np.float64) :
  ∃ verdict,
    _are_close_dict dict_a dict_b = Some verdict
    ∧ (verdict = true
       ↔ dom dict_a = dom dict_b
         ∧ ∀ k va vb, dict_a !! k = Some va → dict_b !! k = Some vb →
             isclose vb va = true).
Proof.
  unfold _are_close_dict.
  destruct (decide (dom dict_a ≠ dom dict_b)) as [Hne|Heq].
  - exists false. split; [done|]. split; [done|]. by intros [? _].
  - apply dec_stable in Heq.
    destruct (are_close_items_spec (map_to_list dict_a) dict_b)
      as (verdict & Hrun & Hspec).
    { intros k v Hin%elem_of_map_to_list.
      apply elem_of_dom. rewrite <- Heq. apply elem_of_dom. eauto. }
    exists verdict. split; [done|]. rewrite Hspec. split.
    + intros Hall. split; [done|]. intros k va vb Ha.
      apply Hall. by apply elem_of_map_to_list.
    + intros [_ Hall] k va vb Hin%elem_of_map_to_list. by apply Hall.
Qed.


(** X17. [_are_close_dict] never fails on a missing key: it always returns
    a verdict, and the verdict is [True] exactly when the two dictionaries
    have the same keys and, for every key, the value of [dict_b] is close to
    the value of [dict_a] in the sense of [np.isclose], the value of
    [dict_a] being the reference. *)
Theorem are_close_dict_spec (dict_a dict_b : gmap K np.float64) :
  ∃ verdict,
    _are_close_dict dict_a dict_b = Some verdict
    ∧ (verdict = true
       ↔ dom dict_a = dom dict_b
         ∧ ∀ k va vb, dict_a !! k = Some va → dict_b !! k = Some vb →
             isclose vb va = true).
Proof. apply are_close_dict_verdict. Qed.

(** X18. A dictionary is close to itself exactly when none of its values is
    [nan]: one [nan] value makes [_are_close_dict(d, d)] return [False]. *)
Theorem are_close_dict_refl (d : gmap K np.float64) :
  _are_close_dict d d = Some true ↔ ∀ k, d !! k ≠ Some np.NaN.
Proof.
  destruct (are_close_dict_verdict d d) as (verdict & Hrun & Hspec).
  rewrite Hrun. split.
  - intros [= ->]. intros k Hk.
    destruct Hspec as [Hspec _]. destruct (Hspec eq_refl) as [_ Hall].
    specialize (Hall k _ _ Hk Hk). by apply isclose_refl in Hall.
  - intros Hnan. f_equal. apply Hspec. split; [done|].
    intros k va vb Ha Hb. rewrite Ha in Hb. injection Hb as <-.
    apply isclose_refl. intros ->. by eapply Hnan.
Qed.
End are_close_dict_props.
